(** * Knowledge-graph construction engine: a shallow embedding

    This development embeds the class [IssueKnowledgeGraph] of
    [knowledge_graph.py] and checks the properties that the specification
    states about it.  It also embeds the graph of the demonstration script
    and the validators and the parser of [validator.py] and
    [ticket_parser.py].

    Conventions of the embedding:
    - a Python [str] is a [string]; a character is a code point below 256;
    - a Python [float] is a primitive binary64 float ([PrimFloat.float]);
    - a [dict] is a [gmap] with string keys;
    - [print] and the [GraphLogger] calls are recorded as a list of
      [Event]s, exceptions are values of [Exn]. *)

From Stdlib Require Import Ascii Floats.
From stdpp Require Import gmap strings list pretty relations.

Open Scope string_scope.
Open Scope list_scope.

(** ** Python string primitives *)

Module PyStr.

(** [str.isspace] on one character (code points below 256): tab, line
    feed, vertical tab, form feed, carriage return, the four separators
    0x1c-0x1f, space, next-line 0x85 and no-break space 0xa0. *)
Definition is_space (c : ascii) : bool :=
  let n := nat_of_ascii c in
  (((9 <=? n) && (n <=? 13)) || ((28 <=? n) && (n <=? 32))
   || (n =? 133) || (n =? 160))%nat.

Definition is_empty (s : string) : bool :=
  match s with EmptyString => true | String _ _ => false end.

(** [s.lstrip()] *)
Fixpoint lstrip (s : string) : string :=
  match s with
  | EmptyString => EmptyString
  | String c rest => if is_space c then lstrip rest else s
  end.

(** [s.rstrip()] *)
Fixpoint rstrip (s : string) : string :=
  match s with
  | EmptyString => EmptyString
  | String c rest =>
      let rest' := rstrip rest in
      if is_space c && is_empty rest' then EmptyString else String c rest'
  end.

(** [s.strip()] *)
Definition strip (s : string) : string := rstrip (lstrip s).

(** [s.startswith(marker)] *)
Definition startswith (s marker : string) : bool := String.prefix marker s.

(** [s.split(sep)] for a one-character separator: never the empty list. *)
Fixpoint split (sep : ascii) (s : string) : list string :=
  match s with
  | EmptyString => [EmptyString]
  | String c rest =>
      if Ascii.eqb c sep then EmptyString :: split sep rest
      else match split sep rest with
           | [] => [String c EmptyString]
           | piece :: pieces => String c piece :: pieces
           end
  end.

(** [sep.join(pieces)] *)
Fixpoint join (sep : string) (pieces : list string) : string :=
  match pieces with
  | [] => EmptyString
  | [p] => p
  | p :: rest => p +:+ sep +:+ join sep rest
  end.

(** [s[:n]] *)
Fixpoint take (n : nat) (s : string) : string :=
  match n, s with
  | S n', String c rest => String c (take n' rest)
  | _, _ => EmptyString
  end.

(** [s.lower()] on code points below 256: A-Z and the accented capitals
    0xc0-0xde (0xd7, the multiplication sign, apart) move up by 32. *)
Definition lower_char (c : ascii) : ascii :=
  let n := nat_of_ascii c in
  if (((65 <=? n) && (n <=? 90))
      || ((192 <=? n) && (n <=? 222) && negb (n =? 215)))%nat
  then ascii_of_nat (n + 32) else c.

Fixpoint lower (s : string) : string :=
  match s with
  | EmptyString => EmptyString
  | String c rest => String (lower_char c) (lower rest)
  end.

Definition newline : ascii := ascii_of_nat 10%nat.
Definition nl : string := String newline EmptyString.

End PyStr.

(** ** Data model *)

Record TicketNode := mkNode {
  node_id : string;
  node_section : string;
  node_content : string
}.

(** Dataclass equality compares the three fields. *)
#[global] Instance TicketNode_eq_dec : EqDecision TicketNode.
Proof. solve_decision. Defined.

(** An edge is [(fromNode, toNode, relationshipType)]. *)
Definition Edge : Type := string * string * string.

Record TicketTree := mkTree {
  tree_id : string;
  tree_nodes : list TicketNode;
  tree_edges : list Edge
}.

(** ** Code-section extraction *)

Definition code_block_markers : list string := ["```"; "~~~"; "    "].

(** [any(s.startswith(marker) for marker in markers)] *)
Definition any_startswith (s : string) (markers : list string) : bool :=
  existsb (PyStr.startswith s) markers.

(** The three local variables of the scanning loop. *)
Record Scan := mkScan {
  code_sections : list string;
  in_code_block : bool;
  current_block : list string
}.

(** [if current_block: code_sections.append('\n'.join(current_block));
    current_block = []] *)
Definition flush_block (st : Scan) : Scan :=
  match current_block st with
  | [] => st
  | _ :: _ =>
      mkScan (code_sections st ++ [PyStr.join PyStr.nl (current_block st)])
             (in_code_block st) []
  end.

Definition set_in_code_block (b : bool) (st : Scan) : Scan :=
  mkScan (code_sections st) b (current_block st).

(** One iteration of [for line in lines]. *)
Definition scan_line (st : Scan) (line : string) : Scan :=
  if any_startswith (PyStr.strip line) (take 2%nat code_block_markers) then
    (* a fence line: flush when closing, toggle, [continue] *)
    let st1 := if in_code_block st then flush_block st else st in
    set_in_code_block (negb (in_code_block st)) st1
  else
    let st1 :=
      if negb (in_code_block st) && PyStr.startswith line "    " then
        set_in_code_block true st
      else if in_code_block st && negb (PyStr.startswith line "    ")
              && negb (PyStr.is_empty (PyStr.strip line)) then
        set_in_code_block false (flush_block st)
      else st in
    if in_code_block st1 then
      let clean_line := PyStr.strip line in
      if negb (any_startswith clean_line code_block_markers) then
        mkScan (code_sections st1) (in_code_block st1)
               (current_block st1 ++ [PyStr.strip line])
      else st1
    else st1.

Definition _extract_code_sections (text : string) : list string :=
  let lines := PyStr.split PyStr.newline text in
  let st := fold_left scan_line lines (mkScan [] false []) in
  code_sections (flush_block st).

(** The description of the specification's round-trip example: a fence
    line, the line [x=1], a fence line. *)
Definition fenced_example : string :=
  "```" +:+ PyStr.nl +:+ "x=1" +:+ PyStr.nl +:+ "```".

(** The same block with its body indented by four spaces. *)
Definition fenced_indented_example : string :=
  "```" +:+ PyStr.nl +:+ "    x=1" +:+ PyStr.nl +:+ "```".

(** ** Ticket records

    A ticket is a [dict].  The engine reads scalar values under the keys
    [id], [Summary], [summary], [title], [Description], [description],
    [text], [Priority], [priority], and a list of link objects under
    [links].  The record keeps the two kinds of value apart: [fields]
    holds the scalar-valued keys, [links] is [Some l] exactly when the key
    [links] is present.  Scalars are the JSON scalars other than
    fractional numbers. *)

Inductive Scalar :=
| SNone
| SBool (b : bool)
| SInt (z : Z)
| SStr (s : string).

#[global] Instance Scalar_eq_dec : EqDecision Scalar.
Proof. solve_decision. Defined.

(** [bool(v)] *)
Definition truthy (v : Scalar) : bool :=
  match v with
  | SNone => false
  | SBool b => b
  | SInt z => negb (z =? 0)%Z
  | SStr s => negb (PyStr.is_empty s)
  end.

(** [str(v)], which is also how an f-string renders [v]. *)
Definition py_str (v : Scalar) : string :=
  match v with
  | SNone => "None"
  | SBool true => "True"
  | SBool false => "False"
  | SInt z => pretty z
  | SStr s => s
  end.

(** [a or b] *)
Definition py_or (a b : Scalar) : Scalar := if truthy a then a else b.

(** A link object: a [dict] of scalars. *)
Abbreviation Link := (gmap string Scalar).

Record Ticket := mkTicket {
  fields : gmap string Scalar;
  links : option (list Link)
}.

(** [ticket.get(key, dflt)]; [ticket.get(key)] is [get ticket key SNone]. *)
Definition get (ticket : Ticket) (key : string) (dflt : Scalar) : Scalar :=
  default dflt (fields ticket !! key).

(** The part of a template the engine reads: the list under [sections],
    when the key is present; a section is a [dict] of scalars. *)
Record Template := mkTemplate {
  sections : option (list (gmap string Scalar))
}.

(** ** Exceptions and output *)

Inductive Exn :=
| ValueError (msg : string)
| KeyError (key : string)
| AttributeError (attr : string)
| ShapeError (n m : nat)          (* [np.dot] on lengths [n] and [m] *)
| ProviderError (msg : string).   (* raised by the embedding provider *)

Definition ExplicitConnection : Type := Scalar * Scalar * Scalar.
Definition ImplicitConnection : Type := string * string * float.

Inductive Event :=
| Printed (prefix : string) (e : Exn)
| LogTicketProcessing (ticket_id : string) (nodes_count edges_count : nat)
| LogError (context : string) (error : Exn) (ticket_id : Scalar)
| LogExplicitConnection (c : ExplicitConnection)
| LogImplicitConnection (c : ImplicitConnection).

(** Sequencing of computations that may raise. *)
Definition bind_exn {A B} (m : Exn + A) (k : A -> Exn + B) : Exn + B :=
  match m with
  | inl e => inl e
  | inr a => k a
  end.

Notation "'let*' x ':=' m 'in' k" := (bind_exn m (fun x => k))
  (at level 10, x name, m at level 100, k at level 200, only parsing).

(** [d[key]] *)
Definition subscript (d : gmap string Scalar) (key : string) : Exn + Scalar :=
  match d !! key with
  | Some v => inr v
  | None => inl (KeyError key)
  end.

(** A loop whose body may raise: the first exception ends it. *)
Fixpoint map_exn {A B} (f : A -> Exn + B) (xs : list A) : Exn + list B :=
  match xs with
  | [] => inr []
  | x :: rest =>
      let* y := f x in
      let* ys := map_exn f rest in
      inr (y :: ys)
  end.

(** A loop whose body prints or logs and appends to one result list. *)
Fixpoint for_each {A B} (xs : list A) (body : A -> list Event * list B)
  : list Event * list B :=
  match xs with
  | [] => ([], [])
  | x :: rest =>
      ((body x).1 ++ (for_each rest body).1,
       (body x).2 ++ (for_each rest body).2)
  end.

(** ** The engine *)

Record KnowledgeGraph := mkGraph {
  trees : list TicketTree;
  explicit_connections : list ExplicitConnection;
  implicit_connections : list ImplicitConnection
}.

(** [self]: the embedding provider, a function from text to a vector or
    an exception, and the threshold. *)
Record IssueKnowledgeGraph := mkEngine {
  embedding_model : string -> Exn + list float;
  similarity_threshold : float
}.

Definition __init__ (embedding_model : string -> Exn + list float)
    (threshold : float) : Exn + IssueKnowledgeGraph :=
  if negb ((0 <=? threshold)%float && (threshold <=? 1)%float) then
    inl (ValueError "threshold must be between 0 and 1")
  else inr (mkEngine embedding_model threshold).

Definition summary_content (ticket : Ticket) : Scalar :=
  py_or (py_or (get ticket "Summary" SNone) (get ticket "summary" SNone))
        (get ticket "title" (SStr "")).

Definition description_content (ticket : Ticket) : Scalar :=
  py_or (py_or (get ticket "Description" SNone)
               (get ticket "description" SNone))
        (get ticket "text" (SStr "")).

Definition priority (ticket : Ticket) : Scalar :=
  py_or (get ticket "Priority" SNone) (get ticket "priority" (SStr "")).

(** The nodes appended once the [id] check has passed; [tid] is
    [ticket['id']]. *)
Definition rule_nodes (tid : Scalar) (ticket : Ticket) : list TicketNode :=
  (if truthy (summary_content ticket) then
     [mkNode (py_str tid +:+ "_summary") "Summary"
             (py_str (summary_content ticket))]
   else [])
  ++ (if truthy (description_content ticket) then
        [mkNode (py_str tid +:+ "_description") "Description"
                (py_str (description_content ticket))]
      else [])
  ++ (if truthy (priority ticket) then
        [mkNode (py_str tid +:+ "_priority") "Priority"
                (py_str (priority ticket))]
      else [])
  ++ (if truthy (description_content ticket) then
        imap (fun i code =>
                mkNode (py_str tid +:+ "_code_" +:+ pretty i) "Code" code)
             (_extract_code_sections (py_str (description_content ticket)))
      else []).

Definition parse_ticket_with_rules (ticket : Ticket)
  : Exn + list TicketNode :=
  match fields ticket !! "id" with
  | None => inl (ValueError "ticket must have an 'id' field")
  | Some tid => inr (rule_nodes tid ticket)
  end.

Definition _extract_section_with_llm (ticket : Ticket)
    (section : gmap string Scalar) : string := "".

(** The body of the loop over the template's sections. *)
Definition llm_section (ticket : Ticket) (section : gmap string Scalar)
  : Exn + list TicketNode :=
  let* section_name := subscript section "name" in
  let section_content := _extract_section_with_llm ticket section in
  if negb (PyStr.is_empty section_content) then
    let* tid := subscript (fields ticket) "id" in
    match section_name with
    | SStr name =>
        inr [mkNode (py_str tid +:+ "_" +:+ PyStr.lower name) name
                    section_content]
    | _ => inl (AttributeError "lower")
    end
  else inr [].

(** The loop runs inside [try]: an exception is printed and the nodes
    collected so far are returned. *)
Fixpoint llm_loop (ticket : Ticket) (todo : list (gmap string Scalar))
    (nodes : list TicketNode) : list Event * list TicketNode :=
  match todo with
  | [] => ([], nodes)
  | section :: rest =>
      match llm_section ticket section with
      | inl e => ([Printed "Error in LLM parsing: " e], nodes)
      | inr new => llm_loop ticket rest (nodes ++ new)
      end
  end.

Definition parse_ticket_with_llm (ticket : Ticket) (template : Template)
  : list Event * list TicketNode :=
  llm_loop ticket (default [] (sections template)) [].

Definition is_section (name : string) (node : TicketNode) : bool :=
  bool_decide (node_section node = name).

(** [next((node for node in nodes if node.section == "Summary"), first)] *)
Definition select_root (first : TicketNode) (nodes : list TicketNode)
  : TicketNode :=
  default first (find (is_section "Summary") nodes).

(** The edges one iteration of [for node in nodes] appends. *)
Definition node_edges (root_node : TicketNode) (nodes : list TicketNode)
    (node : TicketNode) : list Edge :=
  (if decide (node <> root_node) then
     [(node_id root_node, node_id node, "contains")]
   else [])
  ++ (if is_section "Code" node then
        match find (is_section "Description") nodes with
        | Some potential_parent =>
            [(node_id potential_parent, node_id node, "has_code")]
        | None => []
        end
      else []).

Definition underscore : ascii := ascii_of_nat 95%nat.

Definition construct_ticket_tree (nodes : list TicketNode) : TicketTree :=
  match nodes with
  | [] => mkTree "" [] []
  | first :: _ =>
      let root_node := select_root first nodes in
      let ticket_id := hd "" (PyStr.split underscore (node_id root_node)) in
      mkTree ticket_id nodes (flat_map (node_edges root_node nodes) nodes)
  end.

(** The loop of [get_ticket_title], with its fallback. *)
Fixpoint title_of (nodes : list TicketNode) (fallback : string) : string :=
  match nodes with
  | [] => fallback
  | node :: rest =>
      if is_section "Summary" node then node_content node
      else if is_section "Description" node then
        PyStr.take 50 (node_content node)
      else title_of rest fallback
  end.

Definition get_ticket_title (tree : TicketTree) : string :=
  title_of (tree_nodes tree) (tree_id tree).

(** [np.dot] on two vectors of one length; the products are summed from
    left to right (the order in which NumPy adds them is its own, which
    can change the last bits of a sum but not a sum of zeros). *)
Definition dot (vec1 vec2 : list float) : float :=
  fold_left (fun acc xy => (acc + xy.1 * xy.2)%float) (zip vec1 vec2)
            0%float.

(** [np.linalg.norm] of a vector. *)
Definition norm (vec : list float) : float := PrimFloat.sqrt (dot vec vec).

(** NumPy divides without raising, so the quotient is returned as it is. *)
Definition cosine_similarity (vec1 vec2 : list float) : Exn + float :=
  if decide (length vec1 = length vec2) then
    inr (dot vec1 vec2 / (norm vec1 * norm vec2))%float
  else inl (ShapeError (length vec1) (length vec2)).

Definition calculate_similarity (self : IssueKnowledgeGraph)
    (tree1 tree2 : TicketTree) : list Event * float :=
  let attempt :=
    let title1 := get_ticket_title tree1 in
    let title2 := get_ticket_title tree2 in
    let* embedding1 := embedding_model self title1 in
    let* embedding2 := embedding_model self title2 in
    cosine_similarity embedding1 embedding2 in
  match attempt with
  | inr similarity => ([], similarity)
  | inl e => ([Printed "Error calculating similarity: " e], 0%float)
  end.

(** The body of the inner loop of [find_implicit_connections]. *)
Definition compare_pair (self : IssueKnowledgeGraph)
    (tree1 tree2 : TicketTree) : list Event * list ImplicitConnection :=
  let r := calculate_similarity self tree1 tree2 in
  (r.1,
   if (similarity_threshold self <=? r.2)%float then
     [(tree_id tree1, tree_id tree2, r.2)]
   else []).

Definition find_implicit_connections (self : IssueKnowledgeGraph)
    (trees : list TicketTree) : list Event * list ImplicitConnection :=
  for_each (imap pair trees)
    (fun it => for_each (drop (S it.1) trees) (compare_pair self it.2)).

(** The tuple appended for one link of one ticket. *)
Definition link_connection (ticket : Ticket) (link : Link)
  : Exn + ExplicitConnection :=
  let* from_id := subscript (fields ticket) "id" in
  let* to_id := subscript link "ticket_id" in
  let* relationship := subscript link "relationship" in
  inr (from_id, to_id, relationship).

Definition ticket_connections (ticket : Ticket)
  : Exn + list ExplicitConnection :=
  match links ticket with
  | None => inr []
  | Some declared => map_exn (link_connection ticket) declared
  end.

Definition find_explicit_connections (tickets : list Ticket)
  : Exn + list ExplicitConnection :=
  let* per_ticket := map_exn ticket_connections tickets in
  inr (concat per_ticket).

(** The body of the first loop of [build_graph], with its [try]. *)
Definition process_ticket (ticket : Ticket) (template : Template)
  : list Event * list TicketTree :=
  match parse_ticket_with_rules ticket with
  | inl e =>
      ([LogError "ticket_processing" e (get ticket "id" (SStr "unknown"))],
       [])
  | inr rule_based_nodes =>
      let llm := parse_ticket_with_llm ticket template in
      let all_nodes := rule_based_nodes ++ llm.2 in
      let tree := construct_ticket_tree all_nodes in
      (llm.1 ++ [LogTicketProcessing (tree_id tree)
                   (length (tree_nodes tree)) (length (tree_edges tree))],
       [tree])
  end.

(** The first loop of [build_graph]. *)
Definition process_tickets (tickets : list Ticket) (template : Template)
  : list Event * list TicketTree :=
  for_each tickets (fun ticket => process_ticket ticket template).

Definition build_graph (self : IssueKnowledgeGraph) (tickets : list Ticket)
    (template : Template) : list Event * (Exn + KnowledgeGraph) :=
  let built := process_tickets tickets template in
  match find_explicit_connections tickets with
  | inl e => (built.1, inl e)
  | inr explicit =>
      let found := find_implicit_connections self built.2 in
      (built.1 ++ map LogExplicitConnection explicit
         ++ found.1 ++ map LogImplicitConnection found.2,
       inr (mkGraph built.2 explicit found.2))
  end.

(** ** Properties stated by the specification *)

(** [e] is a "contains" edge into the fragment named [fid]. *)
Definition into_contains (fid : string) (e : Edge) : Prop :=
  e.1.2 = fid ∧ e.2 = "contains".

#[global] Instance into_contains_dec fid e : Decision (into_contains fid e).
Proof. unfold into_contains. apply _. Defined.

Definition incoming_contains (tree : TicketTree) (fid : string) : nat :=
  length (filter (into_contains fid) (tree_edges tree)).

Definition contains_step (tree : TicketTree) (a b : string) : Prop :=
  (a, b, "contains") ∈ tree_edges tree.

Definition contains_acyclic (tree : TicketTree) : Prop :=
  ∀ a, ¬ tc (contains_step tree) a a.

(** [tree] is a tree rooted at [root]: the root is one of its fragments
    and has no incoming "contains" edge, every other fragment has exactly
    one, and the "contains" edges form no cycle. *)
Definition rooted_at (tree : TicketTree) (root : TicketNode) : Prop :=
  root ∈ tree_nodes tree
  ∧ incoming_contains tree (node_id root) = 0
  ∧ (∀ n, n ∈ tree_nodes tree → n ≠ root →
          incoming_contains tree (node_id n) = 1)
  ∧ contains_acyclic tree.

(** A summary, a priority, and the same priority fragment once more. *)
Definition repeated_fragment : list TicketNode :=
  [mkNode "T_summary" "Summary" "Login bug";
   mkNode "T_priority" "Priority" "High";
   mkNode "T_priority" "Priority" "High"].

(** A description fragment placed before the summary fragment. *)
Definition description_first : list TicketNode :=
  [mkNode "T_description" "Description" "Steps to reproduce";
   mkNode "T_summary" "Summary" "Login bug"].

(** A ticket whose identifier contains the separator. *)
Definition underscore_ticket : Ticket :=
  mkTicket (<["id" := SStr "ENT_1"]> (<["Summary" := SStr "Login bug"]> ∅))
           None.

(** The two nested loops over a list, as a list comprehension. *)
Definition nested {A B} (g : A → A → list B) (l : list A) : list B :=
  flat_map (λ it, flat_map (g it.2) (drop (S it.1) l)) (imap pair l).

(** The positions [(i, j)] with [i < j < n], in the order in which the
    two loops of [find_implicit_connections] visit them. *)
Definition index_pairs (n : nat) : list (nat * nat) :=
  flat_map (λ i, pair i <$> seq (S i) (n - S i)) (seq 0 n).

(** The representative text of a tree as the specification defines it:
    the content of the Summary fragment; else the first 50 characters of
    the content of the Description fragment; else the tree's identifier. *)
Definition spec_representative (tree : TicketTree) : string :=
  match find (is_section "Summary") (tree_nodes tree) with
  | Some summary => node_content summary
  | None =>
      match find (is_section "Description") (tree_nodes tree) with
      | Some description => PyStr.take 50 (node_content description)
      | None => tree_id tree
      end
  end.

(** The similarity as the specification defines it: the cosine of the two
    vectors, and 0 when either vector has zero norm. *)
Definition spec_similarity (a b : list float) : float :=
  if (norm a =? 0)%float || (norm b =? 0)%float then 0%float
  else (dot a b / (norm a * norm b))%float.

(** What the specification has the pair of positions [ij] contribute: a
    connection exactly when the similarity of the two representative
    embeddings reaches the threshold. *)
Definition spec_contribution (self : IssueKnowledgeGraph)
    (trees : list TicketTree) (ij : nat * nat) : list ImplicitConnection :=
  match trees !! ij.1, trees !! ij.2 with
  | Some a, Some b =>
      match embedding_model self (spec_representative a),
            embedding_model self (spec_representative b) with
      | inr va, inr vb =>
          let similarity := spec_similarity va vb in
          if (similarity_threshold self <=? similarity)%float
          then [(tree_id a, tree_id b, similarity)] else []
      | _, _ => []
      end
  | _, _ => []
  end.

(** No Description fragment comes before a Summary fragment. *)
Definition summary_leads (nodes : list TicketNode) : Prop :=
  ∀ i j d s,
    nodes !! i = Some d → nodes !! j = Some s →
    is_section "Description" d = true → is_section "Summary" s = true →
    (j < i)%nat.

(** A provider that maps every text to the all-zero vector. *)
Definition zero_provider (text : string) : Exn + list float :=
  inr [0%float; 0%float].

(** An engine over the zero provider with threshold 0. *)
Definition zero_engine : IssueKnowledgeGraph := mkEngine zero_provider 0%float.

Definition two_trees : list TicketTree := [mkTree "A" [] []; mkTree "B" [] []].

(** A provider that tells the two texts of [description_first] apart. *)
Definition title_provider (text : string) : Exn + list float :=
  if decide (text = "Login bug") then inr [1%float; 0%float]
  else inr [0%float; 1%float].

(** Two trees with a Summary, whose embeddings are the same unit
    vector. *)
Definition summary_trees : list TicketTree :=
  [mkTree "A" [mkNode "A_summary" "Summary" "Login bug";
               mkNode "A_description" "Description" "Steps"] [];
   mkTree "B" [mkNode "B_summary" "Summary" "Login bug"] []].

(** A provider that fails on the text [down] and maps every other text
    to the same unit vector. *)
Definition flaky_provider (text : string) : Exn + list float :=
  if decide (text = "down") then inl (ProviderError "unavailable")
  else inr [1%float; 0%float].

(** Three trees without fragments: their representative text is their
    identifier. *)
Definition three_trees : list TicketTree :=
  [mkTree "A" [] []; mkTree "down" [] []; mkTree "B" [] []].

(** An engine over the flaky provider with threshold one half. *)
Definition half_engine : IssueKnowledgeGraph :=
  mkEngine flaky_provider 0.5%float.

(** A link that [find_explicit_connections] can read. *)
Definition link_ok (link : Link) : Prop :=
  is_Some (link !! "ticket_id") ∧ is_Some (link !! "relationship").

(** A ticket whose links [find_explicit_connections] can read: it
    declares no link, or it has an [id] and every link is readable. *)
Definition links_ok (ticket : Ticket) : Prop :=
  match links ticket with
  | None | Some [] => True
  | Some declared =>
      is_Some (fields ticket !! "id") ∧ Forall link_ok declared
  end.

(** The link records of a ticket list, each with its ticket, in order. *)
Definition link_records (tickets : list Ticket) : list (Ticket * Link) :=
  flat_map (λ ticket, pair ticket <$> default [] (links ticket)) tickets.

(** [c] is the record [tl] emitted verbatim. *)
Definition projects (tl : Ticket * Link) (c : ExplicitConnection) : Prop :=
  fields tl.1 !! "id" = Some c.1.1
  ∧ tl.2 !! "ticket_id" = Some c.1.2
  ∧ tl.2 !! "relationship" = Some c.2.

(** The tree of a ticket that passes the [id] check. *)
Definition tree_of_ticket (ticket : Ticket) : list TicketTree :=
  match fields ticket !! "id" with
  | Some tid => [construct_ticket_tree (rule_nodes tid ticket)]
  | None => []
  end.



(** Sample tickets. *)
Definition mk_link (target relationship : string) : Link :=
  <["ticket_id" := SStr target]> (<["relationship" := SStr relationship]> ∅).

Definition ticket_A : Ticket :=
  mkTicket (<["id" := SStr "A"]> (<["Summary" := SStr "Login bug"]> ∅))
           (Some [mk_link "B" "blocks"; mk_link "B" "blocks";
                  mk_link "Z" "clones"]).

(** A link record with the keys [target_id] and [type]. *)
Definition jira_link (target type : string) : Link :=
  <["target_id" := SStr target]> (<["type" := SStr type]> ∅).

Definition ticket_jira_linked : Ticket :=
  mkTicket (<["id" := SStr "A"]> (<["Summary" := SStr "Login bug"]> ∅))
           (Some [jira_link "B" "blocks"]).

Definition ticket_B : Ticket :=
  mkTicket (<["id" := SStr "B"]> (<["title" := SStr "Login bug"]> ∅)) None.


Definition ticket_without_id_linked : Ticket :=
  mkTicket (<["Summary" := SStr "Orphan"]> ∅) (Some [mk_link "A" "blocks"]).


Definition ticket_bare : Ticket :=
  mkTicket (<["id" := SStr "C"]> (<["status" := SStr "open"]> ∅)) None.

(** ** Further properties: definitions *)

(** A template section that has the key [name]. *)
Definition named (section : gmap string Scalar) : Prop :=
  is_Some (section !! "name").

(** An edge between two fragments of [nodes], with one of the two labels
    the tree builder writes. *)
Definition edge_local (nodes : list TicketNode) (e : Edge) : Prop :=
  e.1.1 ∈ node_id <$> nodes ∧ e.1.2 ∈ node_id <$> nodes
  ∧ (e.2 = "contains" ∨ e.2 = "has_code").

Definition has_label (label : string) (e : Edge) : Prop := e.2 = label.

#[global] Instance has_label_dec label e : Decision (has_label label e).
Proof. unfold has_label. apply _. Defined.

(** One "has_code" edge from the first Description fragment of [nodes] to
    each Code fragment of [todo]; none without a Description. *)
Definition code_parent_edges (nodes todo : list TicketNode) : list Edge :=
  match find (is_section "Description") nodes with
  | Some d =>
      (λ c, (node_id d, node_id c, "has_code"))
        <$> filter (λ c, node_section c = "Code") todo
  | None => []
  end.

(** An implicit connection whose score passes the threshold test and is
    a number, from a tree to a later tree of the list. *)
Definition connection_ok (self : IssueKnowledgeGraph)
    (trees : list TicketTree) (c : ImplicitConnection) : Prop :=
  (similarity_threshold self <=? c.2)%float = true
  ∧ is_nan c.2 = false
  ∧ ∃ i j a b, i < j ∧ trees !! i = Some a ∧ trees !! j = Some b
               ∧ c.1.1 = tree_id a ∧ c.1.2 = tree_id b.

(** The tests of the scanning loop on one line. *)
Definition is_fence (line : string) : bool :=
  any_startswith (PyStr.strip line) (take 2%nat code_block_markers).

Definition indented (line : string) : bool := PyStr.startswith line "    ".

(** A string without line feed. *)
Definition one_line (line : string) : Prop :=
  PyStr.split PyStr.newline line = [line].

(** A line of an indented block: four leading spaces, not a fence. *)
Definition block_line (line : string) : Prop :=
  indented line = true ∧ is_fence line = false ∧ one_line line.

Definition fence_line (line : string) : Prop :=
  is_fence line = true ∧ one_line line.

(** A line that, stripped, starts with no marker. *)
Definition plain_line (line : string) : Prop :=
  any_startswith (PyStr.strip line) code_block_markers = false.

(** The section made of the lines of [run]. *)
Definition section_text (run : list string) : string :=
  PyStr.join PyStr.nl (PyStr.strip <$> run).

(** [runs] are runs of consecutive lines of [lines] that follow one
    another in [lines] without overlap. *)
Fixpoint successive_runs (lines : list string) (runs : list (list string))
  : Prop :=
  match runs with
  | [] => True
  | run :: rest =>
      ∃ before after,
        lines = before ++ run ++ after ∧ successive_runs after rest
  end.

(** A run that makes a section: not empty, of plain lines. *)
Definition section_run (run : list string) : Prop :=
  run ≠ [] ∧ Forall plain_line run.

(** The state of the scanning loop once the lines [done] are read: the
    sections found are successive runs of [done], and the current block
    is the run that ends [done]. *)
Definition scan_inv (done : list string) (st : Scan) : Prop :=
  ∃ runs before run,
    done = before ++ run
    ∧ successive_runs before runs
    ∧ Forall section_run runs
    ∧ code_sections st = section_text <$> runs
    ∧ current_block st = PyStr.strip <$> run
    ∧ Forall plain_line run
    ∧ (in_code_block st = false → run = []).

(** ** Further properties: the log, and the demonstration script

    [create_networkx_graph] of [example_usage.py] turns a knowledge graph
    into a NetworkX [MultiDiGraph].  The graph is modelled by its node
    dictionary and its edge list, with [add_node] and [add_edge] as
    NetworkX defines them: [add_node] creates the node or updates its
    attributes, [add_edge] creates the endpoints it does not find, without
    attributes, and always adds an edge. *)

Definition link_keys : list string := ["id"; "ticket_id"; "relationship"].

Definition is_connection_event (ev : Event) : bool :=
  match ev with
  | LogExplicitConnection _ | LogImplicitConnection _ => true
  | _ => false
  end.

Definition connection_events (log : list Event) : list Event :=
  List.filter is_connection_event log.

(** Python equality identifies [True] with [1] and [False] with [0]; a
    node key keeps its first component up to that equality. *)
Definition canon (v : Scalar) : Scalar :=
  match v with
  | SBool b => SInt (if b then 1 else 0)
  | _ => v
  end.

Abbreviation NodeKey := (Scalar * string)%type.

Record NodeAttrs := mkAttrs {
  attr_section : string;
  attr_content : string;
  attr_label : string
}.

Inductive EdgeAttrs :=
| Hierarchical (relationship : string)
| Explicit (relationship : Scalar)
| Implicit (similarity : float).

(** A [MultiDiGraph]: the node dictionary in insertion order, a node made
    by [add_edge] having no attribute, and the edges in insertion order. *)
Record MultiDiGraph := mkDiGraph {
  g_nodes : list (NodeKey * option NodeAttrs);
  g_edges : list (NodeKey * NodeKey * EdgeAttrs)
}.

(** [key in G.nodes] *)
Definition has_node (g : MultiDiGraph) (key : NodeKey) : bool :=
  bool_decide (key ∈ (g_nodes g).*1).

(** [G.add_node(key, **attrs)] on the node dictionary. *)
Fixpoint set_attrs (key : NodeKey) (attrs : NodeAttrs)
    (nodes : list (NodeKey * option NodeAttrs))
  : list (NodeKey * option NodeAttrs) :=
  match nodes with
  | [] => [(key, Some attrs)]
  | (k, a) :: rest =>
      if decide (k = key) then (k, Some attrs) :: rest
      else (k, a) :: set_attrs key attrs rest
  end.

Definition add_node (g : MultiDiGraph) (key : NodeKey) (attrs : NodeAttrs)
  : MultiDiGraph :=
  mkDiGraph (set_attrs key attrs (g_nodes g)) (g_edges g).

(** What [add_edge] does to an endpoint. *)
Definition ensure_node (g : MultiDiGraph) (key : NodeKey) : MultiDiGraph :=
  if has_node g key then g
  else mkDiGraph (g_nodes g ++ [(key, None)]) (g_edges g).

(** [G.add_edge(u, v, **attrs)] *)
Definition add_edge (g : MultiDiGraph) (u v : NodeKey) (attrs : EdgeAttrs)
  : MultiDiGraph :=
  let g2 := ensure_node (ensure_node g u) v in
  mkDiGraph (g_nodes g2) (g_edges g2 ++ [(u, v, attrs)]).

Definition tree_key (tree : TicketTree) (name : string) : NodeKey :=
  (SStr (tree_id tree), name).

(** [(ticket, f"{ticket}_summary")] and its description counterpart. *)
Definition section_key (ticket : Scalar) (suffix : string) : NodeKey :=
  (canon ticket, py_str ticket +:+ suffix).

Definition node_label (node : TicketNode) : string :=
  node_section node +:+ PyStr.nl +:+ PyStr.take 30 (node_content node)
    +:+ "...".

(** The body of [for tree in knowledge_graph.trees]. *)
Definition add_tree (g : MultiDiGraph) (tree : TicketTree) : MultiDiGraph :=
  let g1 :=
    fold_left (λ g node,
                 add_node g (tree_key tree (node_id node))
                   (mkAttrs (node_section node) (node_content node)
                            (node_label node)))
              (tree_nodes tree) g in
  fold_left (λ g e,
               add_edge g (tree_key tree e.1.1) (tree_key tree e.1.2)
                        (Hierarchical e.2))
            (tree_edges tree) g1.

Definition add_explicit (g : MultiDiGraph) (c : ExplicitConnection)
  : MultiDiGraph :=
  let g1 := add_edge g (section_key c.1.1 "_summary")
                       (section_key c.1.2 "_summary") (Explicit c.2) in
  if has_node g1 (section_key c.1.1 "_description")
     && has_node g1 (section_key c.1.2 "_description")
  then add_edge g1 (section_key c.1.1 "_description")
                   (section_key c.1.2 "_description") (Explicit c.2)
  else g1.

Definition add_implicit (g : MultiDiGraph) (c : ImplicitConnection)
  : MultiDiGraph :=
  if (0x1.999999999999ap-1 <=? c.2)%float then
    let g1 :=
      if has_node g (section_key (SStr c.1.1) "_summary")
         && has_node g (section_key (SStr c.1.2) "_summary")
      then add_edge g (section_key (SStr c.1.1) "_summary")
                      (section_key (SStr c.1.2) "_summary") (Implicit c.2)
      else g in
    if has_node g1 (section_key (SStr c.1.1) "_description")
       && has_node g1 (section_key (SStr c.1.2) "_description")
    then add_edge g1 (section_key (SStr c.1.1) "_description")
                     (section_key (SStr c.1.2) "_description") (Implicit c.2)
    else g1
  else g.

Definition create_networkx_graph (knowledge_graph : KnowledgeGraph)
  : MultiDiGraph :=
  let g1 := fold_left add_tree (trees knowledge_graph) (mkDiGraph [] []) in
  let g2 := fold_left add_explicit (explicit_connections knowledge_graph) g1 in
  fold_left add_implicit (implicit_connections knowledge_graph) g2.

Definition node_keys (g : MultiDiGraph) : list NodeKey := (g_nodes g).*1.

(** The node [key] exists and carries attributes. *)
Definition has_attrs (g : MultiDiGraph) (key : NodeKey) : Prop :=
  ∃ attrs, (key, Some attrs) ∈ g_nodes g.


(** The hierarchical edge that a tree edge becomes. *)
Definition tree_edge (tree : TicketTree) (e : Edge)
  : NodeKey * NodeKey * EdgeAttrs :=
  (tree_key tree e.1.1, tree_key tree e.1.2, Hierarchical e.2).

(** One graph extends another: its nodes with attributes and its edges are
    kept, and every edge it adds satisfies [P]. *)
Definition extends (P : NodeKey * NodeKey * EdgeAttrs → Prop)
    (g g' : MultiDiGraph) : Prop :=
  (∀ key, key ∈ node_keys g → key ∈ node_keys g')
  ∧ (∀ key, has_attrs g key → has_attrs g' key)
  ∧ ∃ new, g_edges g' = g_edges g ++ new ∧ Forall P new.

Definition is_explicit (e : NodeKey * NodeKey * EdgeAttrs) : Prop :=
  ∃ r, e.2 = Explicit r.

Definition is_strong_implicit (e : NodeKey * NodeKey * EdgeAttrs) : Prop :=
  ∃ s, e.2 = Implicit s ∧ (0x1.999999999999ap-1 <=? s)%float = true.

Definition explicit_or_implicit (e : NodeKey * NodeKey * EdgeAttrs) : Prop :=
  is_explicit e ∨ is_strong_implicit e.

(** The edge between the summary keys of an explicit connection is in [g],
    with both its endpoints. *)
Definition summary_edge_in (g : MultiDiGraph) (c : ExplicitConnection)
  : Prop :=
  section_key c.1.1 "_summary" ∈ node_keys g
  ∧ section_key c.1.2 "_summary" ∈ node_keys g
  ∧ (section_key c.1.1 "_summary", section_key c.1.2 "_summary",
     Explicit c.2) ∈ g_edges g.

(** ** Templates, validators and the template-driven parser

    [validator.py] and [ticket_parser.py] read a template: a [dict] with a
    list of section specifications under [sections] and a list of
    relationship specifications under [relationships].  A specification is
    a [dict] of scalars; a section may also hold a list of scalars under
    [values].  The tickets they read are [dict]s of scalars. *)

Record SectionSpec := mkSectionSpec {
  spec_fields : gmap string Scalar;
  spec_values : option (list Scalar)
}.

Record FullTemplate := mkFullTemplate {
  template_sections : option (list SectionSpec);
  template_relationships : option (list (gmap string Scalar))
}.

(** [a == b] on scalars. *)
Definition py_eqb (a b : Scalar) : bool := bool_decide (canon a = canon b).

(** [x in l] for a list [l]. *)
Definition py_in (x : Scalar) (l : list Scalar) : bool :=
  existsb (py_eqb x) l.

(** [name in ticket]: the keys of a ticket are strings. *)
Definition key_in (name : Scalar) (ticket : gmap string Scalar) : bool :=
  match name with
  | SStr key => bool_decide (is_Some (ticket !! key))
  | _ => false
  end.

(** [ticket[name]] when [name in ticket]. *)
Definition key_get (name : Scalar) (ticket : gmap string Scalar) : Scalar :=
  match name with
  | SStr key => default SNone (ticket !! key)
  | _ => SNone
  end.

(** [section.get('required', False)] as a condition. *)
Definition is_required (section : SectionSpec) : bool :=
  truthy (default (SBool false) (spec_fields section !! "required")).

(** The text of a [ValidationError], by the f-string that makes it. *)
Inductive Message :=
| RequiredMissing (section_name : Scalar)
| InvalidEnumValue (section_name : Scalar) (values : option (list Scalar))
| InvalidRelationship (rel_type : string) (valid : list Scalar)
| Unidirectional (rel_type source_id target_id : string).

Record ValidationError := mkError {
  error_field : Scalar;
  error_message : Message;
  error_severity : string
}.

Record TicketValidator := mkTicketValidator {
  tv_template : FullTemplate;
  tv_required_sections : list Scalar
}.

(** [[section['name'] for section in sections if section.get('required',
    False)]] *)
Definition required_names (sections : list SectionSpec)
  : Exn + list Scalar :=
  map_exn (λ section, subscript (spec_fields section) "name")
          (List.filter is_required sections).

Definition TicketValidator_init (template : FullTemplate)
  : Exn + TicketValidator :=
  match template_sections template with
  | None => inl (KeyError "sections")
  | Some sections =>
      let* required := required_names sections in
      inr (mkTicketValidator template required)
  end.

(** The errors of the first loop of [validate_ticket]. *)
Definition missing_errors (required : list Scalar)
    (ticket : gmap string Scalar) : list ValidationError :=
  flat_map (λ section_name,
              if negb (key_in section_name ticket) then
                [mkError section_name (RequiredMissing section_name) "error"]
              else [])
           required.

(** The body of the second loop of [validate_ticket]. *)
Definition enum_errors (ticket : gmap string Scalar) (section : SectionSpec)
  : Exn + list ValidationError :=
  let* section_name := subscript (spec_fields section) "name" in
  if key_in section_name ticket then
    let content := key_get section_name ticket in
    let* type := subscript (spec_fields section) "type" in
    if py_eqb type (SStr "enum")
       && negb (py_in content (default [] (spec_values section)))
    then inr [mkError section_name
                (InvalidEnumValue section_name (spec_values section))
                "error"]
    else inr []
  else inr [].

Definition validate_ticket (self : TicketValidator)
    (ticket : gmap string Scalar) : Exn + list ValidationError :=
  let errors := missing_errors (tv_required_sections self) ticket in
  match template_sections (tv_template self) with
  | None => inl (KeyError "sections")
  | Some sections =>
      let* found := map_exn (enum_errors ticket) sections in
      inr (errors ++ concat found)
  end.

Record GraphValidator := mkGraphValidator {
  gv_template : FullTemplate;
  valid_relationships : list Scalar
}.

Definition GraphValidator_init (template : FullTemplate)
  : Exn + GraphValidator :=
  let* names :=
    map_exn (λ rel, subscript rel "name")
            (default [] (template_relationships template)) in
  inr (mkGraphValidator template names).

(** [next((rel for rel in rels if rel['name'] == rel_type), None)] *)
Fixpoint find_relationship (rel_type : string)
    (rels : list (gmap string Scalar))
  : Exn + option (gmap string Scalar) :=
  match rels with
  | [] => inr None
  | rel :: rest =>
      let* name := subscript rel "name" in
      if py_eqb name (SStr rel_type) then inr (Some rel)
      else find_relationship rel_type rest
  end.

Definition validate_relationship (self : GraphValidator)
    (source_id target_id rel_type : string) : Exn + list ValidationError :=
  let errors :=
    if negb (py_in (SStr rel_type) (valid_relationships self)) then
      [mkError (SStr "relationship")
         (InvalidRelationship rel_type (valid_relationships self)) "error"]
    else [] in
  let* rel_config :=
    find_relationship rel_type
      (default [] (template_relationships (gv_template self))) in
  match rel_config with
  | Some rel =>
      if negb (truthy (default (SBool false) (rel !! "bidirectional"))) then
        inr (errors ++
             [mkError (SStr "relationship_direction")
                (Unidirectional rel_type source_id target_id) "warning"])
      else inr errors
  | None => inr errors
  end.

(** The [metadata] of a section that [parse_ticket] returns. *)
Inductive Metadata :=
| Predefined                      (* {'source': 'predefined'} *)
| Parsed (confidence : float).    (* {'source': 'parsed', 'confidence': c} *)

Record TicketSection := mkSection {
  ts_name : Scalar;
  ts_content : Scalar;
  ts_metadata : option Metadata
}.

Record TicketParser := mkTicketParser {
  tp_template : FullTemplate;
  tp_sections : list Scalar;
  tp_required_sections : list Scalar
}.

Definition TicketParser_init (template : FullTemplate)
  : Exn + TicketParser :=
  match template_sections template with
  | None => inl (KeyError "sections")
  | Some sections =>
      let* names :=
        map_exn (λ section, subscript (spec_fields section) "name")
                sections in
      let* required := required_names sections in
      inr (mkTicketParser template names required)
  end.

(** [next((s for s in sections if s['name'] == section_name), None)] *)
Fixpoint find_section (section_name : Scalar) (sections : list SectionSpec)
  : Exn + option SectionSpec :=
  match sections with
  | [] => inr None
  | s :: rest =>
      let* name := subscript (spec_fields s) "name" in
      if py_eqb name section_name then inr (Some s)
      else find_section section_name rest
  end.

Definition validate_section (self : TicketParser) (section_name : Scalar)
    (content : Scalar) : Exn + bool :=
  match template_sections (tp_template self) with
  | None => inl (KeyError "sections")
  | Some sections =>
      let* section_config := find_section section_name sections in
      match section_config with
      | None => inr false
      | Some config =>
          let* type := subscript (spec_fields config) "type" in
          if py_eqb type (SStr "enum") then
            inr (py_in content (default [] (spec_values config)))
          else inr true
      end
  end.

(** The body of the first loop of [parse_ticket]. *)
Definition parse_predefined (self : TicketParser)
    (ticket : gmap string Scalar) (section_name : Scalar)
  : Exn + list TicketSection :=
  if key_in section_name ticket then
    let content := key_get section_name ticket in
    let* valid := validate_section self section_name content in
    if valid then inr [mkSection section_name content (Some Predefined)]
    else inr []
  else inr [].

Definition parse_ticket (self : TicketParser) (ticket : gmap string Scalar)
  : Exn + list TicketSection :=
  let* found := map_exn (parse_predefined self ticket) (tp_sections self) in
  let sections := concat found in
  if bool_decide (is_Some (ticket !! "text")) then
    let remaining_sections :=
      List.filter (λ s, negb (py_in s (ts_name <$> sections)))
                  (tp_required_sections self) in
    inr (sections ++
         ((λ section_name,
             mkSection section_name (SStr "") (Some (Parsed 0)))
            <$> remaining_sections))
  else inr sections.

Definition enum_template : FullTemplate :=
  mkFullTemplate
    (Some [mkSectionSpec
             (<["name" := SStr "Summary"]>
                (<["type" := SStr "text"]> (<["required" := SBool true]> ∅)))
             None;
           mkSectionSpec
             (<["name" := SStr "Priority"]>
                (<["type" := SStr "enum"]> ∅))
             (Some [SStr "High"; SStr "Low"])])
    (Some [<["name" := SStr "blocks"]> ∅;
           <["name" := SStr "relates_to"]>
             (<["bidirectional" := SBool true]> ∅)]).

(** A ticket with every section of [enum_template], and one without its
    required [Summary]. *)
Definition ticket_high_priority : gmap string Scalar :=
  <["Summary" := SStr "Login bug"]>
    (<["Priority" := SStr "High"]> (<["text" := SStr "t"]> ∅)).

Definition ticket_without_summary : gmap string Scalar :=
  <["Priority" := SStr "High"]> (<["text" := SStr "t"]> ∅).

(** The first relationship specification named [rel_type]. *)
Definition first_named (rel_type : string)
    (rels : list (gmap string Scalar)) : option (gmap string Scalar) :=
  List.find (λ rel, py_eqb (default SNone (rel !! "name")) (SStr rel_type))
            rels.

Definition relationship_error (self : GraphValidator) (rel_type : string)
  : ValidationError :=
  mkError (SStr "relationship")
    (InvalidRelationship rel_type (valid_relationships self)) "error".

Definition direction_warning (source_id target_id rel_type : string)
  : ValidationError :=
  mkError (SStr "relationship_direction")
    (Unidirectional rel_type source_id target_id) "warning".

(** A section specification with the keys [name] and [type]. *)
Definition well_formed_spec (section : SectionSpec) : Prop :=
  is_Some (spec_fields section !! "name")
  ∧ is_Some (spec_fields section !! "type").

(** If the ticket has the section and the section is an enumeration, the
    ticket's value is one of the listed values. *)
Definition section_allows (ticket : gmap string Scalar)
    (section : SectionSpec) : Prop :=
  ∀ name type,
    spec_fields section !! "name" = Some name →
    spec_fields section !! "type" = Some type →
    key_in name ticket = true →
    py_eqb type (SStr "enum") = true →
    py_in (key_get name ticket) (default [] (spec_values section)) = true.

Definition missing_error (section_name : Scalar) : ValidationError :=
  mkError section_name (RequiredMissing section_name) "error".

(** What a section returned by [parse_ticket] says about the ticket: a
    predefined section is a template section of the ticket, with the
    ticket's value; a parsed one is an empty placeholder for a required
    section of a ticket with a [text]. *)
Definition section_from (self : TicketParser) (ticket : gmap string Scalar)
    (s : TicketSection) : Prop :=
  match ts_metadata s with
  | Some Predefined =>
      ts_name s ∈ tp_sections self
      ∧ key_in (ts_name s) ticket = true
      ∧ ts_content s = key_get (ts_name s) ticket
  | Some (Parsed confidence) =>
      ts_name s ∈ tp_required_sections self
      ∧ ts_content s = SStr ""
      ∧ confidence = 0%float
      ∧ is_Some (ticket !! "text")
  | None => False
  end.

(** The section [parse_ticket] returns for a template section of the
    ticket. *)
Definition predefined (ticket : gmap string Scalar) (section_name : Scalar)
  : TicketSection :=
  mkSection section_name (key_get section_name ticket) (Some Predefined).

(** ** Theorems *)

Example split_fenced_example :
  PyStr.split PyStr.newline fenced_example = ["```"; "x=1"; "```"].
Proof. reflexivity. Qed.

Example strip_example : PyStr.strip "   x = 1  " = "x = 1".
Proof. reflexivity. Qed.

(** A fenced block whose body is indented is captured as one section. *)
Example extract_fenced_indented :
  _extract_code_sections fenced_indented_example = ["x=1"].
Proof. reflexivity. Qed.

(** C1. The claim is that the description made of a fenced block around
    the line [x=1] yields exactly one Code fragment with content [x=1].
    On the code it yields no fragment at all: the unindented body line
    takes the branch that ends an indented block, which resets
    [in_code_block], so the line is never collected and the closing
    fence re-opens a block instead of closing one. *)
Theorem extract_fenced_example_empty :
  _extract_code_sections fenced_example = [].
Proof. vm_compute. reflexivity. Qed.

(** C2. The claim is that the similarity is 0 whenever one of the two
    vectors has zero norm.  The code divides by the product of the norms
    without a guard: on all-zero vectors, and on a zero vector against a
    non-zero one, the quotient 0/0 is NaN. *)
Theorem cosine_similarity_zero_norm_nan :
  cosine_similarity [0%float; 0%float] [0%float; 0%float] = inr nan
  ∧ cosine_similarity [0%float; 0%float] [1%float; 2%float] = inr nan.
Proof. split; vm_compute; reflexivity. Qed.

(** The same on all-zero vectors of any length, the empty one included. *)
Lemma dot_zeros n :
  dot (replicate n 0%float) (replicate n 0%float) = 0%float.
Proof. unfold dot. induction n as [|n IH]; [done|]. exact IH. Qed.

Lemma cosine_similarity_all_zero n :
  cosine_similarity (replicate n 0%float) (replicate n 0%float) = inr nan.
Proof.
  unfold cosine_similarity, norm. rewrite decide_True by done.
  rewrite dot_zeros. done.
Qed.

(** C6. The claim is that the Summary fragment's content is used whenever
    the tree has a Summary fragment.  The loop returns at the first
    fragment that is a Summary or a Description, so a Description placed
    before the Summary wins. *)
Theorem title_prefers_earlier_description :
  get_ticket_title (construct_ticket_tree description_first)
  = "Steps to reproduce".
Proof. vm_compute. reflexivity. Qed.

(** C8. The claim is that the tree of a ticket with identifier [t] has
    identifier [t], also when [t] contains an underscore.  The code keeps
    what comes before the first underscore of the root's identifier. *)
Theorem tree_id_cut_at_first_underscore :
  tree_id <$> (process_ticket underscore_ticket (mkTemplate None)).2
  = ["ENT"].
Proof. vm_compute. reflexivity. Qed.

(** *** The tree invariant *)

Lemma flat_map_bind {A B} (f : A → list B) (l : list A) :
  flat_map f l = l ≫= f.
Proof. induction l as [|x l IH]; [done|]. simpl. by rewrite IH. Qed.

Lemma select_root_elem first nodes :
  first ∈ nodes → select_root first nodes ∈ nodes.
Proof.
  intros Hfirst. unfold select_root.
  destruct (find _ nodes) as [r|] eqn:Hfind; simpl; [|done].
  apply find_some in Hfind as [Hin _]. by apply list_elem_of_In.
Qed.

(** Fragments of a list with pairwise distinct identifiers are determined
    by their identifier. *)
Lemma node_id_inj_on (nodes : list TicketNode) n m :
  NoDup (node_id <$> nodes) → n ∈ nodes → m ∈ nodes →
  node_id n = node_id m → n = m.
Proof.
  induction nodes as [|a l IH]; intros Hnd Hn Hm Hid.
  { by apply elem_of_nil in Hn. }
  rewrite fmap_cons in Hnd. apply NoDup_cons in Hnd as [Ha Hnd].
  apply elem_of_cons in Hn as [->|Hn]; apply elem_of_cons in Hm as [->|Hm].
  - done.
  - exfalso. apply Ha. rewrite Hid. by apply list_elem_of_fmap_2.
  - exfalso. apply Ha. rewrite <- Hid. by apply list_elem_of_fmap_2.
  - by apply IH.
Qed.

(** The "contains" edges into [fid] that one iteration appends. *)
Lemma filter_node_edges root nodes fid node :
  filter (into_contains fid) (node_edges root nodes node)
  = if decide (node ≠ root ∧ node_id node = fid)
    then [(node_id root, node_id node, "contains")] else [].
Proof.
  unfold node_edges. rewrite filter_app.
  match goal with
  | |- _ ++ ?F = _ => assert (F = []) as ->
  end.
  { destruct (is_section "Code" node); [|done].
    destruct (find _ nodes); [|done].
    rewrite filter_cons_False; [done|]. intros [_ Hlabel]. discriminate. }
  rewrite app_nil_r.
  destruct (decide (node ≠ root)) as [Hne|Heq].
  - destruct (decide (node_id node = fid)) as [Hid|Hid].
    + rewrite filter_cons_True by (by split).
      rewrite decide_True by (by split). done.
    + rewrite filter_cons_False by (intros [? _]; done).
      rewrite decide_False by (intros [_ ?]; done). done.
  - rewrite decide_False by (intros [? _]; done). done.
Qed.

Lemma incoming_contains_count root nodes fid (todo : list TicketNode) :
  length (filter (into_contains fid)
            (flat_map (node_edges root nodes) todo))
  = length (filter (λ n, n ≠ root ∧ node_id n = fid) todo).
Proof.
  induction todo as [|a l IH]; [done|].
  simpl. rewrite filter_app, length_app, IH, filter_node_edges.
  rewrite filter_cons. destruct (decide (a ≠ root ∧ node_id a = fid)); done.
Qed.

Lemma filter_by_id (P : TicketNode → Prop) `{!∀ n, Decision (P n)}
    (nodes : list TicketNode) m :
  NoDup (node_id <$> nodes) → m ∈ nodes →
  filter (λ n, P n ∧ node_id n = node_id m) nodes
  = if decide (P m) then [m] else [].
Proof.
  induction nodes as [|a l IH]; intros Hnd Hm.
  { by apply elem_of_nil in Hm. }
  rewrite fmap_cons in Hnd. apply NoDup_cons in Hnd as [Ha Hnd].
  assert (∀ x, x ∈ l → node_id x ≠ node_id a) as Hfresh.
  { intros x Hx Heq. apply Ha. rewrite <- Heq. by apply list_elem_of_fmap_2. }
  apply elem_of_cons in Hm as [->|Hm].
  - assert (filter (λ n, P n ∧ node_id n = node_id a) l = []) as Hnone.
    { clear -Hfresh. induction l as [|b l IH]; [done|].
      rewrite filter_cons_False.
      - apply IH. intros x Hx. apply Hfresh. by right.
      - intros [_ Hid]. by apply (Hfresh b); [left|]. }
    rewrite filter_cons, Hnone.
    destruct (decide (P a)).
    + rewrite decide_True by done. done.
    + rewrite decide_False by (intros [? _]; done). done.
  - rewrite filter_cons_False.
    + by apply IH.
    + intros [_ Hid]. by apply (Hfresh m).
Qed.

Lemma contains_edge_shape root nodes (todo : list TicketNode) a b :
  (a, b, "contains") ∈ flat_map (node_edges root nodes) todo →
  a = node_id root ∧ ∃ n, n ∈ todo ∧ n ≠ root ∧ b = node_id n.
Proof.
  rewrite list_elem_of_In, in_flat_map. intros (n & Hn & He).
  apply list_elem_of_In in Hn. unfold node_edges in He.
  apply in_app_or in He as [He|He].
  - destruct (decide (n ≠ root)) as [Hne|]; [|done].
    destruct He as [He|[]]. inversion He; subst. eauto.
  - destruct (is_section "Code" n); [|done].
    destruct (find _ nodes); [|done].
    destruct He as [He|[]]. discriminate.
Qed.

(** C3, as amended.  For every non-empty fragment sequence whose fragment
    identifiers are pairwise distinct, the tree built from it is rooted at
    the first Summary fragment, or at the first fragment when there is no
    Summary: the root has no incoming "contains" edge, every other
    fragment has exactly one, and the "contains" edges are acyclic. *)
Theorem construct_ticket_tree_rooted first rest :
  NoDup (node_id <$> first :: rest) →
  rooted_at (construct_ticket_tree (first :: rest))
            (select_root first (first :: rest)).
Proof.
  intros Hnd.
  set (nodes := first :: rest) in *.
  set (root := select_root first nodes).
  assert (root ∈ nodes) as Hroot by (apply select_root_elem; left).
  assert (tree_edges (construct_ticket_tree nodes)
          = flat_map (node_edges root nodes) nodes) as Hedges by done.
  assert (tree_nodes (construct_ticket_tree nodes) = nodes) as Hnodes by done.
  unfold rooted_at, incoming_contains, contains_acyclic, contains_step.
  rewrite Hedges, Hnodes.
  split; [done|]. split; [|split].
  - rewrite incoming_contains_count, (filter_by_id _ nodes root) by done.
    rewrite decide_False by (intros ?; done). done.
  - intros n Hn Hne.
    rewrite incoming_contains_count, (filter_by_id _ nodes n) by done.
    rewrite decide_True by done. done.
  - intros a Hcycle.
    assert (∀ x y,
      tc (λ a b, (a, b, "contains") ∈ flat_map (node_edges root nodes) nodes)
         x y → x = node_id root ∧ y ≠ node_id root) as Hshape.
    { assert (∀ x y,
        (x, y, "contains") ∈ flat_map (node_edges root nodes) nodes →
        x = node_id root ∧ y ≠ node_id root) as Hstep.
      { intros x y Hxy.
        apply contains_edge_shape in Hxy as (-> & n & Hn & Hne & ->).
        split; [done|]. intros Hid. apply Hne.
        by apply (node_id_inj_on nodes). }
      intros x y Htc. induction Htc as [x y Hxy|x y z Hxy _ IH].
      - by apply Hstep.
      - apply Hstep in Hxy as [_ Hy]. by destruct IH. }
    apply Hshape in Hcycle as [-> Hne]. done.
Qed.

(** The amended statement at the fragments of a ticket with a summary, a
    description and a priority. *)
Lemma construct_ticket_tree_rooted_witness :
  rooted_at
    (construct_ticket_tree
       [mkNode "T_description" "Description" "Steps";
        mkNode "T_summary" "Summary" "Login bug";
        mkNode "T_priority" "Priority" "High"])
    (mkNode "T_summary" "Summary" "Login bug").
Proof.
  apply (construct_ticket_tree_rooted
           (mkNode "T_description" "Description" "Steps")
           [mkNode "T_summary" "Summary" "Login bug";
            mkNode "T_priority" "Priority" "High"]).
  apply (bool_decide_unpack _). vm_compute. reflexivity.
Defined.

(** C3, as stated, fails: a fragment that occurs twice receives two
    "contains" edges. *)
Lemma repeated_fragment_two_parents :
  ¬ (∀ first rest,
       rooted_at (construct_ticket_tree (first :: rest))
                 (select_root first (first :: rest))).
Proof.
  intros Hall.
  destruct (Hall (mkNode "T_summary" "Summary" "Login bug")
                 (tail repeated_fragment)) as (_ & _ & Hone & _).
  specialize (Hone (mkNode "T_priority" "Priority" "High")).
  assert (incoming_contains (construct_ticket_tree repeated_fragment)
            "T_priority" = 1) as Habs.
  { apply Hone.
    - apply list_elem_of_In. simpl. auto.
    - discriminate. }
  vm_compute in Habs. discriminate.
Qed.

(** A rooted tree has one root only: a fragment without incoming
    "contains" edge is the root. *)
Lemma rooted_at_root_unique tree root n :
  rooted_at tree root → n ∈ tree_nodes tree →
  incoming_contains tree (node_id n) = 0 → n = root.
Proof.
  intros (_ & _ & Hone & _) Hn Hzero.
  destruct (decide (n = root)) as [|Hne]; [done|].
  rewrite (Hone n Hn Hne) in Hzero. discriminate.
Qed.

(** The fragments that [parse_ticket_with_rules] returns have pairwise
    distinct identifiers, so the trees of a build are rooted trees. *)
Lemma code_ids (p : string) (codes : list string) :
  node_id <$> imap (λ i code,
                      mkNode (p +:+ "_code_" +:+ pretty i) "Code" code) codes
  = (λ i, p +:+ "_code_" +:+ pretty i) <$> seq 0 (length codes).
Proof.
  rewrite fmap_imap.
  apply (imap_seq_0 codes (λ i, p +:+ "_code_" +:+ pretty i)).
Qed.

(** X1. The fragments of a ticket have pairwise distinct identifiers. *)
Lemma rule_nodes_NoDup tid ticket :
  NoDup (node_id <$> rule_nodes tid ticket).
Proof.
  unfold rule_nodes.
  set (p := py_str tid). set (codes := _extract_code_sections _).
  assert (NoDup ((λ i, p +:+ "_code_" +:+ pretty i)
                   <$> seq 0 (length codes))) as Hcodes.
  { apply NoDup_fmap_2_strong; [|apply NoDup_seq].
    intros i j _ _ Heq.
    apply (inj (String.app p)), (inj (String.app "_code_")) in Heq.
    by apply (inj pretty) in Heq. }
  assert (∀ s, (∀ i : nat, s ≠ "_code_" +:+ pretty i) →
            p +:+ s ∉ (λ i, p +:+ "_code_" +:+ pretty i)
                        <$> seq 0 (length codes)) as Hfresh.
  { intros s Hs (i & Heq & _)%list_elem_of_fmap.
    apply (inj (String.app p)) in Heq. by apply (Hs i). }
  assert (∀ s1 s2, s1 ≠ s2 → p +:+ s1 ≠ p +:+ s2) as Hne.
  { intros s1 s2 Hs Heq. by apply Hs, (inj (String.app p)). }
  destruct (truthy (summary_content ticket)),
           (truthy (description_content ticket)),
           (truthy (priority ticket)); simpl; rewrite ?code_ids;
    repeat (apply NoDup_cons; split);
    rewrite ?not_elem_of_cons; repeat split;
    try (apply Hne; discriminate);
    try (apply Hfresh; intros i; discriminate);
    try apply NoDup_nil_2; try apply not_elem_of_nil; try done.
Qed.

(** *** Comparisons of floats *)

Lemma SFcompare_refl x : x ≠ S754_nan → SFcompare x x = Some Eq.
Proof.
  destruct x as [s|s| |s m e]; intros Hx; try done.
  - by destruct s.
  - simpl. rewrite Z.compare_refl.
    assert (Pos.compare_cont Eq m m = Eq) as -> by apply Pos.compare_cont_refl.
    by destruct s.
Qed.

Lemma leb_refl_of_nonneg (x : float) :
  (0 <=? x)%float = true → (x <=? x)%float = true.
Proof.
  rewrite !leb_spec. unfold SFleb. intros H0.
  rewrite SFcompare_refl; [done|].
  intros Hnan. rewrite Hnan in H0. vm_compute in H0. discriminate.
Qed.

Lemma leb_zero_of_pos (x : float) :
  (0 <? x)%float = true → (x <=? 0)%float = false.
Proof.
  rewrite ltb_spec, leb_spec. unfold SFltb, SFleb.
  change (Prim2SF 0) with (S754_zero false).
  destruct (Prim2SF x) as [s|s| |s m e]; simpl; try done; by destruct s.
Qed.

Lemma init_threshold emb thr self :
  __init__ emb thr = inr self →
  embedding_model self = emb ∧ similarity_threshold self = thr
  ∧ (0 <=? thr)%float = true ∧ (thr <=? 1)%float = true.
Proof.
  unfold __init__.
  destruct (0 <=? thr)%float eqn:H0, (thr <=? 1)%float eqn:H1;
    simpl; intros Hinit; try discriminate.
  by inversion Hinit.
Qed.

(** *** Loops *)

Lemma for_each_snd {A B} (xs : list A) (body : A → list Event * list B) :
  (for_each xs body).2 = flat_map (λ x, (body x).2) xs.
Proof. induction xs as [|x xs IH]; [done|]. simpl. by rewrite IH. Qed.

Lemma for_each_app {A B} (xs ys : list A) (body : A → list Event * list B) :
  for_each (xs ++ ys) body
  = ((for_each xs body).1 ++ (for_each ys body).1,
     (for_each xs body).2 ++ (for_each ys body).2).
Proof.
  induction xs as [|x xs IH]; simpl.
  - by destruct (for_each ys body).
  - rewrite IH. simpl. by rewrite !app_assoc.
Qed.

Lemma flat_map_fmap {A B C} (f : B → list C) (g : A → B) (l : list A) :
  flat_map f (g <$> l) = flat_map (λ x, f (g x)) l.
Proof.
  induction l as [|x l IH]; [done|]. rewrite fmap_cons. simpl. by rewrite IH.
Qed.

Lemma fmap_flat_map {A B C} (g : B → C) (h : A → list B) (l : list A) :
  g <$> flat_map h l = flat_map (λ x, g <$> h x) l.
Proof.
  induction l as [|x l IH]; [done|]. simpl. by rewrite fmap_app, IH.
Qed.

Lemma flat_map_nil {A B} (f : A → list B) (l : list A) :
  (∀ x, x ∈ l → f x = []) → flat_map f l = [].
Proof.
  induction l as [|x l IH]; intros Hf; [done|]. simpl.
  rewrite (Hf x) by left. apply IH. intros y Hy. apply Hf. by right.
Qed.

(** Running over the positions of a list is running over its elements. *)
Lemma flat_map_positions {A B} (f : A → list B) (l : list A) :
  flat_map (λ j, match l !! j with Some b => f b | None => [] end)
           (seq 0 (length l))
  = flat_map f l.
Proof.
  induction l as [|a l IH]; [done|].
  simpl. f_equal. rewrite <- fmap_S_seq, flat_map_fmap. exact IH.
Qed.

Lemma nested_cons {A B} (g : A → A → list B) (a : A) (l : list A) :
  nested g (a :: l) = flat_map (g a) l ++ nested g l.
Proof.
  unfold nested. rewrite imap_cons. simpl. rewrite drop_0. f_equal.
  rewrite (imap_ext (pair ∘ S) (λ n, prod_map S id ∘ pair n) l)
    by (intros; done).
  rewrite <- fmap_imap, flat_map_fmap. done.
Qed.

Lemma index_pairs_S n :
  index_pairs (S n)
  = (pair 0 <$> seq 1 n) ++ (prod_map S S <$> index_pairs n).
Proof.
  unfold index_pairs. rewrite fmap_flat_map.
  change (seq 0 (S n)) with (0 :: seq 1 n). simpl.
  rewrite Nat.sub_0_r. f_equal.
  rewrite <- fmap_S_seq, flat_map_fmap. apply flat_map_ext. intros i.
  simpl. rewrite <- fmap_S_seq, <- !list_fmap_compose. done.
Qed.

Lemma nested_index_pairs {A B} (g : A → A → list B) (l : list A) :
  nested g l
  = flat_map (λ ij, match l !! ij.1, l !! ij.2 with
                    | Some a, Some b => g a b
                    | _, _ => []
                    end) (index_pairs (length l)).
Proof.
  induction l as [|a l IH]; [done|].
  rewrite nested_cons. simpl length.
  rewrite index_pairs_S, flat_map_app, !flat_map_fmap. f_equal.
  - rewrite <- fmap_S_seq, flat_map_fmap. simpl.
    symmetry. apply flat_map_positions.
  - rewrite IH. done.
Qed.

Lemma elem_of_index_pairs n i j :
  (i, j) ∈ index_pairs n ↔ i < j < n.
Proof.
  unfold index_pairs. rewrite list_elem_of_In, in_flat_map. split.
  - intros (k & Hk & Hij).
    apply list_elem_of_In, elem_of_seq in Hk.
    apply list_elem_of_In, list_elem_of_fmap in Hij as (m & Heq & Hm).
    apply elem_of_seq in Hm. inversion Heq; subst. lia.
  - intros Hij. exists i. split.
    + apply list_elem_of_In, elem_of_seq. lia.
    + apply list_elem_of_In, list_elem_of_fmap. exists j. split; [done|].
      apply elem_of_seq. lia.
Qed.

Lemma NoDup_index_pairs n : NoDup (index_pairs n).
Proof.
  unfold index_pairs. rewrite flat_map_bind.
  apply NoDup_bind; [| |apply NoDup_seq].
  - intros i1 i2 ij _ _ H1 H2.
    apply list_elem_of_fmap in H1 as (? & -> & _).
    apply list_elem_of_fmap in H2 as (? & Heq & _). by inversion Heq.
  - intros i _. apply (NoDup_fmap_2 _). apply NoDup_seq.
Qed.

Lemma find_implicit_connections_nested self trees :
  (find_implicit_connections self trees).2
  = nested (λ a b, (compare_pair self a b).2) trees.
Proof.
  unfold find_implicit_connections, nested. rewrite for_each_snd.
  apply flat_map_ext. intros it. apply for_each_snd.
Qed.

(** C4. The claim is that a pair of trees is connected exactly when the
    similarity of their representative embeddings is at least the
    threshold, the similarity of a vector of zero norm being 0.  With the
    accepted threshold 0 and a provider that returns all-zero vectors, the
    similarity of the specification is 0, which reaches the threshold, so
    the pair is to be connected with score 0; the code computes NaN, the
    test [NaN >= 0] fails and nothing is found. *)
Theorem zero_norm_pair_not_connected :
  __init__ zero_provider 0%float = inr zero_engine
  ∧ flat_map (spec_contribution zero_engine two_trees) (index_pairs 2)
    = [("A", "B", 0%float)]
  ∧ find_implicit_connections zero_engine two_trees = ([], []).
Proof. repeat split; vm_compute; reflexivity. Qed.

(** The same divergence through the title: with a Description placed
    before the Summary the code embeds the description, the specification
    the summary. *)
Example description_first_pair_not_connected :
  let trees := [construct_ticket_tree description_first;
                mkTree "B" [mkNode "B_summary" "Summary" "Login bug"] []] in
  let engine := mkEngine title_provider 0.5%float in
  flat_map (spec_contribution engine trees) (index_pairs 2)
  = [("T", "B", 1%float)]
  ∧ find_implicit_connections engine trees = ([], []).
Proof. split; vm_compute; reflexivity. Qed.

Lemma summary_leads_tail n nodes :
  summary_leads (n :: nodes) → summary_leads nodes.
Proof.
  intros H i j d s Hi Hj Hd Hs.
  specialize (H (S i) (S j) d s Hi Hj Hd Hs). lia.
Qed.

Lemma title_of_spec nodes tid :
  summary_leads nodes →
  title_of nodes tid = spec_representative (mkTree tid nodes []).
Proof.
  unfold spec_representative. simpl.
  induction nodes as [|n nodes IH]; intros Hleads; [done|].
  simpl. destruct (is_section "Summary" n) eqn:Hsum; [done|].
  destruct (is_section "Description" n) eqn:Hdesc.
  - destruct (find (is_section "Summary") nodes) as [s|] eqn:Hfind; [|done].
    apply find_some in Hfind as [Hin Hs].
    apply list_elem_of_In, list_elem_of_lookup in Hin as [j Hj].
    specialize (Hleads 0%nat (S j) n s eq_refl Hj Hdesc Hs). lia.
  - apply IH. by eapply summary_leads_tail.
Qed.

Lemma get_ticket_title_spec tree :
  summary_leads (tree_nodes tree) →
  get_ticket_title tree = spec_representative tree.
Proof.
  intros H. destruct tree as [tid nodes edges]. by apply title_of_spec.
Qed.

Lemma compare_pair_spec self a b va vb :
  summary_leads (tree_nodes a) → summary_leads (tree_nodes b) →
  embedding_model self (spec_representative a) = inr va →
  embedding_model self (spec_representative b) = inr vb →
  length va = length vb →
  (norm va =? 0)%float = false → (norm vb =? 0)%float = false →
  (compare_pair self a b).2
  = if (similarity_threshold self <=? spec_similarity va vb)%float
    then [(tree_id a, tree_id b, spec_similarity va vb)] else [].
Proof.
  intros Ha Hb Hva Hvb Hlen Hna Hnb.
  unfold compare_pair, calculate_similarity, spec_similarity.
  rewrite !get_ticket_title_spec, Hva, Hvb by done. simpl.
  unfold cosine_similarity. rewrite decide_True by done.
  by rewrite Hna, Hnb.
Qed.

(** X28. Away from the two divergences the code follows the rule of the
    specification.  For an engine built with a threshold in [0, 1] and
    trees in which no Description comes before a Summary and whose
    representative embeddings all exist with one length and a non-zero
    norm: the connections found are, position pair by position pair over
    the pairs [i < j], a connection exactly when the similarity of the
    specification is at least the threshold; each pair of positions is
    visited once; a similarity equal to the threshold yields the
    connection. *)
Theorem implicit_connections_match_spec emb thr self
    (trees : list TicketTree) d :
  __init__ emb thr = inr self →
  Forall (λ t, summary_leads (tree_nodes t)) trees →
  (∀ t, t ∈ trees →
        ∃ v, emb (spec_representative t) = inr v ∧ length v = d
             ∧ (norm v =? 0)%float = false) →
  (find_implicit_connections self trees).2
    = flat_map (spec_contribution self trees) (index_pairs (length trees))
  ∧ NoDup (index_pairs (length trees))
  ∧ (∀ i j, (i, j) ∈ index_pairs (length trees) ↔ i < j < length trees)
  ∧ (∀ i j a b va vb, trees !! i = Some a → trees !! j = Some b →
       emb (spec_representative a) = inr va →
       emb (spec_representative b) = inr vb →
       spec_similarity va vb = thr →
       spec_contribution self trees (i, j) = [(tree_id a, tree_id b, thr)]).
Proof.
  intros Hinit Hleads Hemb.
  apply init_threshold in Hinit as (Hmodel & Hthr & H0 & _).
  rewrite <- Hmodel in *. rewrite Forall_forall in Hleads.
  split; [|split; [|split]].
  - rewrite find_implicit_connections_nested, nested_index_pairs.
    apply flat_map_ext. intros [i j]. unfold spec_contribution. simpl.
    destruct (trees !! i) as [a|] eqn:Hi; [|done].
    destruct (trees !! j) as [b|] eqn:Hj; [|done].
    apply list_elem_of_lookup_2 in Hi, Hj.
    destruct (Hemb a Hi) as (va & Hva & Hla & Hna).
    destruct (Hemb b Hj) as (vb & Hvb & Hlb & Hnb).
    rewrite Hva, Hvb. apply compare_pair_spec; auto. congruence.
  - apply NoDup_index_pairs.
  - apply elem_of_index_pairs.
  - intros i j a b va vb Hi Hj Hva Hvb Hs. unfold spec_contribution. simpl.
    rewrite Hi, Hj, Hva, Hvb. simpl. rewrite Hs, Hthr.
    by rewrite leb_refl_of_nonneg.
Qed.

(** The statement of X28 at two trees with a Summary. *)
Lemma implicit_connections_match_spec_witness :
  (find_implicit_connections (mkEngine title_provider 0.5%float)
     summary_trees).2
  = [("A", "B", 1%float)].
Proof.
  destruct (implicit_connections_match_spec title_provider 0.5%float
              (mkEngine title_provider 0.5%float) summary_trees 2)
    as [-> _]; [reflexivity| | |reflexivity].
  - repeat constructor; intros [|[|[|i]]] [|[|[|j]]] d s; simpl;
      intros [= <-] [= <-]; try done; intros; lia.
  - intros t Ht. exists [1%float; 0%float].
    apply elem_of_cons in Ht as [->|Ht]; [by vm_compute|].
    apply elem_of_cons in Ht as [->|Ht]; [by vm_compute|].
    by apply elem_of_nil in Ht.
Defined.

(** *** Failing embeddings *)

Lemma calculate_similarity_first_fails self a b e :
  embedding_model self (get_ticket_title a) = inl e →
  calculate_similarity self a b
  = ([Printed "Error calculating similarity: " e], 0%float).
Proof. unfold calculate_similarity. by intros ->. Qed.

Lemma calculate_similarity_second_fails self a b e :
  embedding_model self (get_ticket_title b) = inl e →
  ∃ e', calculate_similarity self a b
        = ([Printed "Error calculating similarity: " e'], 0%float).
Proof.
  unfold calculate_similarity. intros ->.
  destruct (embedding_model self (get_ticket_title a)); simpl; by eexists.
Qed.

Lemma compare_pair_zero self a b log :
  (0 <? similarity_threshold self)%float = true →
  calculate_similarity self a b = (log, 0%float) →
  (compare_pair self a b).2 = [].
Proof.
  intros Hpos Hsim. unfold compare_pair. rewrite Hsim. simpl.
  by rewrite leb_zero_of_pos.
Qed.

Lemma flat_map_delete {A B} (f : A → list B) (l : list A) k x :
  l !! k = Some x → f x = [] → flat_map f (delete k l) = flat_map f l.
Proof.
  revert k. induction l as [|a l IH]; intros [|k] Hk Hx; try done.
  - simpl in Hk. injection Hk as ->. simpl. by rewrite Hx.
  - simpl. f_equal. by apply IH.
Qed.

Lemma nested_delete {A B} (g : A → A → list B) (l : list A) k x :
  l !! k = Some x → (∀ y, g x y = [] ∧ g y x = []) →
  nested g (delete k l) = nested g l.
Proof.
  intros Hk Hx. revert k Hk.
  induction l as [|a l IH]; intros [|k] Hk; try done.
  - simpl in Hk. injection Hk as ->. rewrite nested_cons.
    rewrite flat_map_nil; [done|]. intros y _. apply Hx.
  - change (delete (S k) (a :: l)) with (a :: delete k l).
    rewrite !nested_cons. f_equal.
    + apply (flat_map_delete _ _ _ x); [done|]. apply Hx.
    + by apply IH.
Qed.

(** C5, as amended.  With a positive threshold, a tree whose
    representative-text embedding fails takes no part in the result: the
    connections found are those found without it.  Every comparison that
    involves the tree prints one error line and scores 0.  The build
    returns a graph whenever the explicit links can be read. *)
Theorem failed_embedding_isolated self (trees : list TicketTree) k tk e :
  (0 <? similarity_threshold self)%float = true →
  trees !! k = Some tk →
  embedding_model self (get_ticket_title tk) = inl e →
  (find_implicit_connections self trees).2
    = (find_implicit_connections self (delete k trees)).2
  ∧ (∀ t, ∃ e1 e2,
       calculate_similarity self tk t
         = ([Printed "Error calculating similarity: " e1], 0%float)
       ∧ calculate_similarity self t tk
         = ([Printed "Error calculating similarity: " e2], 0%float))
  ∧ (∀ tickets template explicit,
       find_explicit_connections tickets = inr explicit →
       ∃ g, (build_graph self tickets template).2 = inr g).
Proof.
  intros Hpos Hk Hfail.
  assert (∀ t, ∃ e1 e2,
       calculate_similarity self tk t
         = ([Printed "Error calculating similarity: " e1], 0%float)
       ∧ calculate_similarity self t tk
         = ([Printed "Error calculating similarity: " e2], 0%float)) as Hrep.
  { intros t.
    destruct (calculate_similarity_second_fails self t tk e Hfail) as [e2 H2].
    exists e, e2. split; [|done].
    by apply calculate_similarity_first_fails. }
  split; [|split; [done|]].
  - rewrite !find_implicit_connections_nested. symmetry.
    apply (nested_delete _ _ _ tk); [done|]. intros t.
    destruct (Hrep t) as (e1 & e2 & H1 & H2).
    split; eapply compare_pair_zero; eauto.
  - intros tickets template explicit Hexp. unfold build_graph.
    rewrite Hexp. by eexists.
Qed.

(** The amended statement at three trees, the middle one failing. *)
Lemma failed_embedding_isolated_witness :
  (find_implicit_connections half_engine three_trees).2
  = (find_implicit_connections half_engine
       [mkTree "A" [] []; mkTree "B" [] []]).2.
Proof.
  apply (failed_embedding_isolated half_engine three_trees 1
           (mkTree "down" [] []) (ProviderError "unavailable"));
    reflexivity.
Defined.

(** C5, as stated, fails: a threshold of 0 is accepted, and with it the
    score 0 of a failed comparison passes the test, so the tree whose
    embedding fails is connected to every other tree. *)
Lemma zero_threshold_keeps_failed_tree :
  ¬ (∀ emb thr self (trees : list TicketTree) k tk e,
       __init__ emb thr = inr self →
       trees !! k = Some tk →
       embedding_model self (get_ticket_title tk) = inl e →
       (find_implicit_connections self trees).2
       = (find_implicit_connections self (delete k trees)).2).
Proof.
  intros Hall.
  specialize (Hall flaky_provider 0%float (mkEngine flaky_provider 0%float)
                three_trees 1 (mkTree "down" [] [])
                (ProviderError "unavailable") eq_refl eq_refl eq_refl).
  apply (f_equal length) in Hall. vm_compute in Hall. discriminate.
Qed.

(** *** Explicit connections *)

Lemma map_exn_Forall2 {A B} (f : A → Exn + B) (R : A → B → Prop)
    (xs : list A) :
  Forall (λ x, ∃ y, f x = inr y ∧ R x y) xs →
  ∃ ys, map_exn f xs = inr ys ∧ Forall2 R xs ys.
Proof.
  induction 1 as [|x xs (y & Hy & HR) _ (ys & Hys & HRs)].
  - by exists [].
  - exists (y :: ys). simpl. rewrite Hy, Hys. split; [done|].
    by constructor.
Qed.

Lemma link_connection_projects ticket link :
  is_Some (fields ticket !! "id") → link_ok link →
  ∃ c, link_connection ticket link = inr c ∧ projects (ticket, link) c.
Proof.
  intros [tid Hid] [[to Hto] [rel Hrel]].
  exists (tid, to, rel). unfold link_connection, subscript, projects.
  rewrite Hid. simpl. rewrite Hto. simpl. rewrite Hrel. done.
Qed.

Lemma ticket_connections_projects ticket :
  links_ok ticket →
  ∃ cs, ticket_connections ticket = inr cs
        ∧ Forall2 projects (pair ticket <$> default [] (links ticket)) cs.
Proof.
  unfold links_ok, ticket_connections.
  destruct (links ticket) as [[|link declared]|]; intros Hok.
  - exists []. split; [done|]. constructor.
  - destruct Hok as [Hid Hlinks].
    destruct (map_exn_Forall2 (link_connection ticket)
                (λ link c, projects (ticket, link) c) (link :: declared))
      as (cs & Hcs & HR).
    { eapply Forall_impl; [exact Hlinks|]. intros l Hl.
      by apply link_connection_projects. }
    exists cs. split; [done|]. simpl default.
    by apply Forall2_fmap_l.
  - exists []. split; [done|]. constructor.
Qed.

Lemma Forall2_flat_map_concat {A B C} (R : B → C → Prop) (g : A → list B)
    (xs : list A) (yss : list (list C)) :
  Forall2 (λ x ys, Forall2 R (g x) ys) xs yss →
  Forall2 R (flat_map g xs) (concat yss).
Proof.
  induction 1 as [|x ys xs yss Hx _ IH]; simpl; [constructor|].
  by apply Forall2_app.
Qed.

Lemma find_explicit_connections_projects tickets :
  Forall links_ok tickets →
  ∃ cs, find_explicit_connections tickets = inr cs
        ∧ Forall2 projects (link_records tickets) cs.
Proof.
  intros Hok.
  destruct (map_exn_Forall2 ticket_connections
              (λ t cs, Forall2 projects
                         (pair t <$> default [] (links t)) cs) tickets)
    as (css & Hcss & HR).
  { eapply Forall_impl; [exact Hok|]. intros t Ht.
    by apply ticket_connections_projects. }
  exists (concat css). unfold find_explicit_connections. rewrite Hcss.
  split; [done|]. by apply Forall2_flat_map_concat.
Qed.

Lemma map_exn_inr_inv {A B} (f : A → Exn + B) xs ys :
  map_exn f xs = inr ys → Forall2 (λ x y, f x = inr y) xs ys.
Proof.
  revert ys. induction xs as [|x xs IH]; intros ys; simpl.
  - intros [= <-]. constructor.
  - destruct (f x) as [e|y] eqn:Hy; [done|]. simpl.
    destruct (map_exn f xs) as [e|ys'] eqn:Hys; [done|]. simpl.
    intros [= <-]. constructor; [done|]. by apply IH.
Qed.

Lemma link_connection_inr_inv ticket link c :
  link_connection ticket link = inr c →
  is_Some (fields ticket !! "id") ∧ link_ok link.
Proof.
  unfold link_connection, subscript, link_ok.
  destruct (fields ticket !! "id"); [|done]. simpl.
  destruct (link !! "ticket_id"); [|done]. simpl.
  destruct (link !! "relationship"); [|done]. simpl.
  intros _. eauto.
Qed.

Lemma ticket_connections_inr_inv ticket cs :
  ticket_connections ticket = inr cs → links_ok ticket.
Proof.
  unfold ticket_connections, links_ok.
  destruct (links ticket) as [[|link declared]|]; [done| |done].
  intros Hcs%map_exn_inr_inv.
  inversion Hcs as [|? c ? cs' Hc Hrest]; subst.
  split.
  - by apply link_connection_inr_inv in Hc as [? _].
  - constructor.
    + by apply link_connection_inr_inv in Hc as [_ ?].
    + clear -Hrest. induction Hrest as [|l c' ls cs'' Hl _ IH]; constructor.
      * by apply link_connection_inr_inv in Hl as [_ ?].
      * done.
Qed.

(** X3. [find_explicit_connections] returns exactly on the ticket lists
    whose links can be read; on the others it raises. *)
Lemma find_explicit_connections_returns tickets :
  (∃ cs, find_explicit_connections tickets = inr cs)
  ↔ Forall links_ok tickets.
Proof.
  split.
  - intros [cs Hcs]. unfold find_explicit_connections in Hcs.
    destruct (map_exn ticket_connections tickets) as [e|css] eqn:Hcss;
      [done|].
    apply map_exn_inr_inv in Hcss. clear -Hcss.
    induction Hcss as [|t c ts cs Ht _ IH]; constructor; [|done].
    by eapply ticket_connections_inr_inv.
  - intros Hok.
    destruct (find_explicit_connections_projects tickets Hok) as (cs & ? & _).
    by exists cs.
Qed.

(** X27. For every ticket list whose links can be read (a ticket that
    declares links has an [id], a link has [ticket_id] and
    [relationship]), the explicit connections are the link records of the
    tickets, one connection per record and in the same order, each made of
    the ticket's identifier, the link's target and the link's label as
    they are stored; nothing is looked up in the other tickets. *)
Theorem explicit_connections_projection tickets :
  Forall links_ok tickets →
  ∃ cs, find_explicit_connections tickets = inr cs
        ∧ Forall2 projects (link_records tickets) cs
        ∧ length cs = length (link_records tickets).
Proof.
  intros Hok.
  destruct (find_explicit_connections_projects tickets Hok)
    as (cs & Hcs & HR).
  exists cs. split; [done|]. split; [done|].
  symmetry. by eapply Forall2_length.
Qed.

(** The statement of X27 at a ticket that declares one link twice and a
    link to a ticket that is not in the list. *)
Lemma explicit_connections_projection_witness :
  ∃ cs, find_explicit_connections [ticket_A; ticket_B] = inr cs
        ∧ Forall2 projects (link_records [ticket_A; ticket_B]) cs
        ∧ length cs = length (link_records [ticket_A; ticket_B]).
Proof.
  apply (explicit_connections_projection [ticket_A; ticket_B]).
  repeat constructor; vm_compute; eauto.
Defined.

(** C7. The claim is that every declared link record of every ticket
    list yields its connection.  A link record with the keys [target_id]
    and [type], which is what [transform_jira_response] makes and
    [create_inter_ticket_graph] reads, is not read: the subscript
    [link['ticket_id']] raises and no connection at all is returned. *)
Theorem explicit_connections_target_id_raises :
  find_explicit_connections [ticket_jira_linked] = inl (KeyError "ticket_id").
Proof. vm_compute. reflexivity. Qed.

Example explicit_connections_sample :
  find_explicit_connections [ticket_A; ticket_B]
  = inr [(SStr "A", SStr "B", SStr "blocks");
         (SStr "A", SStr "B", SStr "blocks");
         (SStr "A", SStr "Z", SStr "clones")].
Proof. vm_compute. reflexivity. Qed.

(** *** The build *)

Lemma llm_loop_nodes ticket todo nodes :
  (llm_loop ticket todo nodes).2 = nodes.
Proof.
  revert nodes. induction todo as [|section rest IH]; intros nodes; [done|].
  simpl. unfold llm_section, subscript.
  destruct (section !! "name"); simpl; [|done].
  rewrite IH. apply app_nil_r.
Qed.

Lemma parse_ticket_with_llm_nodes ticket template :
  (parse_ticket_with_llm ticket template).2 = [].
Proof. apply llm_loop_nodes. Qed.

Lemma process_ticket_trees ticket template :
  (process_ticket ticket template).2 = tree_of_ticket ticket.
Proof.
  unfold process_ticket, tree_of_ticket, parse_ticket_with_rules.
  destruct (fields ticket !! "id"); [|done].
  simpl. by rewrite parse_ticket_with_llm_nodes, app_nil_r.
Qed.

Lemma process_tickets_trees tickets template :
  (process_tickets tickets template).2 = flat_map tree_of_ticket tickets.
Proof.
  unfold process_tickets. rewrite for_each_snd.
  apply flat_map_ext. intros t. apply process_ticket_trees.
Qed.


Lemma build_graph_returns self tickets template :
  Forall links_ok tickets →
  ∃ g, (build_graph self tickets template).2 = inr g
       ∧ trees g = (process_tickets tickets template).2
       ∧ ∀ ev, ev ∈ (process_tickets tickets template).1 →
               ev ∈ (build_graph self tickets template).1.
Proof.
  intros Hok.
  destruct (find_explicit_connections_projects tickets Hok) as (cs & Hcs & _).
  unfold build_graph. rewrite Hcs. eexists. split; [done|]. split; [done|].
  intros ev Hev. simpl. apply elem_of_app. by left.
Qed.



(** A ticket without [id] that declares a link ends the whole build:
    reading its links raises outside the per-ticket [try]. *)
Example missing_id_with_link_aborts :
  (build_graph half_engine [ticket_A; ticket_without_id_linked]
     (mkTemplate None)).2
  = inl (KeyError "id").
Proof. vm_compute. reflexivity. Qed.


(** C10. A ticket that has an identifier and no recognised content field
    still gets a tree, at its place among the trees of the graph; the
    tree has the empty identifier and neither nodes nor edges, so the
    ticket's identifier does not appear in it. *)
Theorem contentless_ticket_empty_tree self template pre t post :
  is_Some (fields t !! "id") →
  truthy (summary_content t) = false →
  truthy (description_content t) = false →
  truthy (priority t) = false →
  Forall links_ok (pre ++ t :: post) →
  ∃ g, (build_graph self (pre ++ t :: post) template).2 = inr g
       ∧ trees g = (process_tickets pre template).2
                   ++ mkTree "" [] [] :: (process_tickets post template).2.
Proof.
  intros [tid Hid] Hs Hd Hp Hok.
  destruct (build_graph_returns self _ template Hok) as (g & Hg & Htrees & _).
  exists g. split; [done|]. rewrite Htrees.
  unfold process_tickets. rewrite for_each_app. simpl. f_equal.
  rewrite process_ticket_trees. unfold tree_of_ticket, rule_nodes.
  rewrite Hid, Hs, Hd, Hp. done.
Qed.

(** The statement of C10 at a ticket with an [id] and a [status] only. *)
Lemma contentless_ticket_empty_tree_witness :
  ∃ g, (build_graph half_engine [ticket_A; ticket_bare; ticket_B]
          (mkTemplate None)).2 = inr g
       ∧ trees g = (process_tickets [ticket_A] (mkTemplate None)).2
                   ++ mkTree "" [] []
                   :: (process_tickets [ticket_B] (mkTemplate None)).2.
Proof.
  apply (contentless_ticket_empty_tree half_engine (mkTemplate None)
           [ticket_A] ticket_bare [ticket_B]).
  - vm_compute. eauto.
  - reflexivity.
  - reflexivity.
  - reflexivity.
  - repeat constructor; vm_compute; eauto.
Defined.

(** *** The trees of a build

    Within [build_graph] the fragments of a tree are those of
    [parse_ticket_with_rules], in its order. *)

Lemma split_cons_hd c s :
  ∃ pieces, PyStr.split c s = hd "" (PyStr.split c s) :: pieces.
Proof.
  induction s as [|a s [pieces IH]]; simpl.
  - by eexists.
  - destruct (Ascii.eqb a c); [by eexists|].
    rewrite IH. by eexists.
Qed.

Lemma split_hd_app c s r :
  hd "" (PyStr.split c (s +:+ String c r)) = hd "" (PyStr.split c s).
Proof.
  induction s as [|a s IH]; simpl.
  - by rewrite Ascii.eqb_refl.
  - destruct (Ascii.eqb a c); [done|].
    destruct (split_cons_hd c (s +:+ String c r)) as [ps1 ->].
    destruct (split_cons_hd c s) as [ps2 ->]. simpl. by rewrite IH.
Qed.

Lemma rule_nodes_id_shape tid ticket n :
  n ∈ rule_nodes tid ticket →
  ∃ r, node_id n = py_str tid +:+ String underscore r.
Proof.
  unfold rule_nodes. rewrite !elem_of_app. intros [H|[H|[H|H]]].
  - destruct (truthy (summary_content ticket)); [|by apply elem_of_nil in H].
    apply list_elem_of_singleton in H as ->. by eexists.
  - destruct (truthy (description_content ticket));
      [|by apply elem_of_nil in H].
    apply list_elem_of_singleton in H as ->. by eexists.
  - destruct (truthy (priority ticket)); [|by apply elem_of_nil in H].
    apply list_elem_of_singleton in H as ->. by eexists.
  - destruct (truthy (description_content ticket));
      [|by apply elem_of_nil in H].
    apply elem_of_lookup_imap_1 in H as (i & code & -> & _). by eexists.
Qed.

(** X2. The identifier of the tree of a ticket that yields a fragment is
    the ticket's identifier up to its first underscore: the two agree
    exactly when the identifier has no underscore. *)
Lemma pipeline_tree_id tid ticket :
  rule_nodes tid ticket ≠ [] →
  tree_id (construct_ticket_tree (rule_nodes tid ticket))
  = hd "" (PyStr.split underscore (py_str tid)).
Proof.
  intros Hne.
  destruct (rule_nodes tid ticket) as [|first rest] eqn:Hnodes; [done|].
  destruct (rule_nodes_id_shape tid ticket
              (select_root first (first :: rest))) as [r Hr].
  { rewrite Hnodes. apply select_root_elem. left. }
  simpl. rewrite Hr. apply split_hd_app.
Qed.

(** In a tree of the build the Summary fragment comes first, and there
    the title is the one the specification describes. *)
Lemma pipeline_title_summary tid ticket :
  truthy (summary_content ticket) = true →
  get_ticket_title (construct_ticket_tree (rule_nodes tid ticket))
  = py_str (summary_content ticket).
Proof. unfold rule_nodes. by intros ->. Qed.

Lemma pipeline_title_description tid ticket :
  truthy (summary_content ticket) = false →
  truthy (description_content ticket) = true →
  get_ticket_title (construct_ticket_tree (rule_nodes tid ticket))
  = PyStr.take 50 (py_str (description_content ticket)).
Proof. unfold rule_nodes. by intros -> ->. Qed.

(** ** Further properties of the engine *)

(** *** Template-driven parsing *)
Lemma llm_loop_log ticket todo nodes :
  ((llm_loop ticket todo nodes).1 = [] ∧ Forall named todo)
  ∨ ((llm_loop ticket todo nodes).1
       = [Printed "Error in LLM parsing: " (KeyError "name")]
     ∧ ¬ Forall named todo).
Proof.
  revert nodes. induction todo as [|section rest IH]; intros nodes.
  { left. split; [done|constructor]. }
  simpl. unfold llm_section, subscript.
  destruct (section !! "name") as [v|] eqn:Hname; simpl.
  - destruct (IH (nodes ++ [])) as [[Hlog Hall]|[Hlog Hnot]].
    + left. split; [done|]. constructor; [by eexists|done].
    + right. split; [done|]. intros Hall. apply Hnot.
      by apply Forall_cons in Hall as [_ ?].
  - right. split; [done|]. intros Hall.
    apply Forall_cons in Hall as [[? Hv] _]. unfold named in *. congruence.
Qed.
(** X4. Template-driven parsing never adds a fragment.  It prints one
    error line, for a missing [name], exactly when some section of the
    template lacks the key [name], and nothing otherwise. *)
Theorem parse_ticket_with_llm_adds_nothing ticket template :
  (parse_ticket_with_llm ticket template).2 = []
  ∧ (((parse_ticket_with_llm ticket template).1 = []
      ∧ Forall named (default [] (sections template)))
     ∨ ((parse_ticket_with_llm ticket template).1
          = [Printed "Error in LLM parsing: " (KeyError "name")]
        ∧ ¬ Forall named (default [] (sections template)))).
Proof.
  split; [apply llm_loop_nodes|apply llm_loop_log].
Qed.

(** *** The edges of a tree *)

Lemma find_elem {A} (f : A → bool) (l : list A) x :
  find f l = Some x → x ∈ l ∧ f x = true.
Proof.
  intros H. apply find_some in H as [Hin Hf]. by rewrite list_elem_of_In.
Qed.

Lemma node_edges_local root nodes node :
  root ∈ nodes → node ∈ nodes →
  Forall (edge_local nodes) (node_edges root nodes node).
Proof.
  intros Hroot Hnode. unfold node_edges. apply Forall_app. split.
  - destruct (decide (node ≠ root)); constructor; [|constructor].
    repeat split; simpl; auto using list_elem_of_fmap_2.
  - destruct (is_section "Code" node); [|constructor].
    destruct (find _ nodes) as [p|] eqn:Hp; [|constructor].
    apply find_elem in Hp as [Hp _].
    constructor; [|constructor].
    repeat split; simpl; auto using list_elem_of_fmap_2.
Qed.
(** X5. Every edge of a built tree joins two fragments of that tree and
    is labelled "contains" or "has_code". *)
Theorem tree_edges_local nodes :
  Forall (edge_local nodes) (tree_edges (construct_ticket_tree nodes)).
Proof.
  destruct nodes as [|first rest]; [constructor|].
  set (nodes := first :: rest).
  assert (select_root first nodes ∈ nodes) as Hroot
    by (apply select_root_elem; left).
  change (Forall (edge_local nodes)
            (flat_map (node_edges (select_root first nodes) nodes) nodes)).
  assert (∀ todo, todo ⊆ nodes →
            Forall (edge_local nodes)
              (flat_map (node_edges (select_root first nodes) nodes) todo))
    as Hall.
  { induction todo as [|n todo IH]; intros Hsub; [constructor|].
    simpl. apply Forall_app. split.
    - apply node_edges_local; [done|]. apply Hsub. left.
    - apply IH. intros x Hx. apply Hsub. by right. }
  by apply Hall.
Qed.

Lemma has_code_edges_of root nodes todo :
  filter (has_label "has_code") (flat_map (node_edges root nodes) todo)
  = code_parent_edges nodes todo.
Proof.
  unfold code_parent_edges.
  induction todo as [|n todo IH].
  { by destruct (find _ nodes). }
  simpl. rewrite filter_app, IH. unfold node_edges. rewrite filter_app.
  match goal with
  | |- (?F ++ _) ++ _ = _ => assert (F = []) as ->
  end.
  { destruct (decide (n ≠ root)); [|done].
    by rewrite filter_cons_False by (intros ?; discriminate). }
  simpl. unfold is_section.
  destruct (find _ nodes) as [d|].
  - rewrite (filter_cons (λ c, node_section c = "Code")).
    destruct (decide (node_section n = "Code")) as [Hc|Hc].
    + rewrite bool_decide_eq_true_2 by done.
      rewrite filter_cons_True by done. by rewrite fmap_cons.
    + rewrite bool_decide_eq_false_2 by done. done.
  - by destruct (bool_decide _).
Qed.

Lemma contains_edges_of root nodes todo :
  filter (has_label "contains") (flat_map (node_edges root nodes) todo)
  = (λ n, (node_id root, node_id n, "contains")) <$> filter (λ n, n ≠ root) todo.
Proof.
  induction todo as [|n todo IH]; [done|].
  simpl. rewrite filter_app, IH. unfold node_edges. rewrite filter_app.
  match goal with
  | |- (_ ++ ?F) ++ _ = _ => assert (F = []) as ->
  end.
  { destruct (is_section "Code" n); [|done].
    destruct (find _ nodes); [|done].
    by rewrite filter_cons_False by (intros ?; discriminate). }
  rewrite app_nil_r, (filter_cons (λ n, n ≠ root)).
  destruct (decide (n ≠ root)).
  - rewrite filter_cons_True by done. by rewrite fmap_cons.
  - done.
Qed.

Lemma edges_count_of root nodes todo :
  length (flat_map (node_edges root nodes) todo)
  = length (filter (λ n, n ≠ root) todo)
    + length (code_parent_edges nodes todo).
Proof.
  unfold code_parent_edges.
  induction todo as [|n todo IH].
  { by destruct (find _ nodes). }
  simpl. rewrite length_app, IH. unfold node_edges. rewrite length_app.
  rewrite (filter_cons (λ n, n ≠ root)),
          (filter_cons (λ c, node_section c = "Code")).
  unfold is_section.
  destruct (decide (n ≠ root)), (find _ nodes) as [d|],
           (decide (node_section n = "Code")) as [Hc|Hc];
    rewrite ?(bool_decide_eq_true_2 _ Hc), ?(bool_decide_eq_false_2 _ Hc);
    simpl; rewrite ?length_fmap; try lia.
  all: destruct (bool_decide _); simpl; lia.
Qed.
(** X6. The edges of a built tree, by label: one "contains" edge from
    the root to each fragment that differs from the root, in fragment
    order; one "has_code" edge from the first Description fragment to each
    Code fragment, and none when there is no Description; and no other
    edge. *)
Theorem tree_edges_by_label first rest :
  let nodes := first :: rest in
  let tree := construct_ticket_tree nodes in
  filter (has_label "contains") (tree_edges tree)
    = (λ n, (node_id (select_root first nodes), node_id n, "contains"))
        <$> filter (λ n, n ≠ select_root first nodes) nodes
  ∧ filter (has_label "has_code") (tree_edges tree)
    = code_parent_edges nodes nodes
  ∧ length (tree_edges tree)
    = length (filter (λ n, n ≠ select_root first nodes) nodes)
      + length (code_parent_edges nodes nodes).
Proof.
  intros nodes tree.
  assert (tree_edges tree
          = flat_map (node_edges (select_root first nodes) nodes) nodes)
    as -> by done.
  split; [apply contains_edges_of|]. split; [apply has_code_edges_of|].
  apply edges_count_of.
Qed.

(** *** Implicit connections *)

Lemma SFcompare_nan_r x : SFcompare x S754_nan = None.
Proof. by destruct x. Qed.

Lemma leb_true_not_nan (x y : float) :
  (x <=? y)%float = true → is_nan y = false.
Proof.
  rewrite leb_spec. unfold SFleb, is_nan. rewrite FloatAxioms.eqb_spec. unfold SFeqb.
  intros Hle.
  rewrite SFcompare_refl; [done|].
  intros Hnan. rewrite Hnan, SFcompare_nan_r in Hle. discriminate.
Qed.
(** X7. Every implicit connection found goes from a tree to a later tree
    of the list, and its score passes the threshold test and is not NaN:
    a comparison that yields NaN never connects two trees. *)
Theorem implicit_connections_sound self (trees : list TicketTree) :
  Forall (connection_ok self trees) (find_implicit_connections self trees).2.
Proof.
  rewrite find_implicit_connections_nested, nested_index_pairs.
  apply Forall_flat_map, Forall_forall. intros [i j] Hij.
  apply elem_of_index_pairs in Hij. simpl.
  destruct (trees !! i) as [a|] eqn:Hi; [|constructor].
  destruct (trees !! j) as [b|] eqn:Hj; [|constructor].
  unfold compare_pair. simpl.
  destruct (similarity_threshold self <=? _)%float eqn:Hle; constructor;
    [|constructor].
  split; [done|]. split; [by eapply leb_true_not_nan|].
  exists i, j, a, b. repeat split; [lia|done..].
Qed.

Lemma length_flat_map_le {A B} (f : A → list B) (l : list A) :
  (∀ x, (length (f x) ≤ 1)%nat) → (length (flat_map f l) ≤ length l)%nat.
Proof.
  intros Hf. induction l as [|x l IH]; [done|].
  simpl. rewrite length_app. specialize (Hf x). lia.
Qed.

Lemma length_index_pairs n :
  (2 * length (index_pairs n) = n * (n - 1))%nat.
Proof.
  induction n as [|n IH]; [done|].
  rewrite index_pairs_S, length_app, !length_fmap, length_seq. 
  destruct n; simpl in *; lia.
Qed.

Lemma for_each_fst {A B} (xs : list A) (body : A → list Event * list B) :
  (for_each xs body).1 = flat_map (λ x, (body x).1) xs.
Proof. induction xs as [|x xs IH]; [done|]. simpl. by rewrite IH. Qed.

Lemma find_implicit_connections_log self trees :
  (find_implicit_connections self trees).1
  = nested (λ a b, (compare_pair self a b).1) trees.
Proof.
  unfold find_implicit_connections, nested. rewrite for_each_fst.
  apply flat_map_ext. intros it. apply for_each_fst.
Qed.
(** X8. Over [n] trees at most [n (n - 1) / 2] connections are found
    and at most as many error lines are printed: one comparison per
    unordered pair of positions. *)
Theorem implicit_connections_bound self (trees : list TicketTree) :
  (2 * length (find_implicit_connections self trees).2
     ≤ length trees * (length trees - 1))%nat
  ∧ (2 * length (find_implicit_connections self trees).1
     ≤ length trees * (length trees - 1))%nat.
Proof.
  rewrite <- length_index_pairs.
  rewrite find_implicit_connections_nested, find_implicit_connections_log,
          !nested_index_pairs.
  split.
  - apply Nat.mul_le_mono_l, length_flat_map_le. intros [i j]. simpl.
    destruct (trees !! i), (trees !! j); simpl; try lia.
    unfold compare_pair. simpl. destruct (_ <=? _)%float; simpl; lia.
  - apply Nat.mul_le_mono_l, length_flat_map_le. intros [i j]. simpl.
    destruct (trees !! i) as [a|], (trees !! j) as [b|]; simpl; try lia.
    unfold compare_pair, calculate_similarity. simpl.
    destruct (bind_exn _ _); simpl; lia.
Qed.

(** *** The build *)

(** X9. The representative text of a ticket's tree in a build: the
    summary when the ticket has one; else the first 50 characters of the
    description; else, when only a priority is present, the tree
    identifier (the ticket identifier up to its first underscore); else
    the empty string. *)
Theorem ticket_title_of_build tid ticket :
  get_ticket_title (construct_ticket_tree (rule_nodes tid ticket))
  = if truthy (summary_content ticket) then py_str (summary_content ticket)
    else if truthy (description_content ticket)
         then PyStr.take 50 (py_str (description_content ticket))
    else if truthy (priority ticket)
         then hd "" (PyStr.split underscore (py_str tid))
    else "".
Proof.
  unfold rule_nodes.
  destruct (truthy (summary_content ticket)); [done|].
  destruct (truthy (description_content ticket)); [done|].
  destruct (truthy (priority ticket)); [|done].
  simpl. unfold get_ticket_title. simpl.
  apply (split_hd_app underscore (py_str tid) "priority").
Qed.

(** X10. The template has no effect on the result of a build: graph or
    exception, it is the same for any two templates. *)
Theorem build_graph_ignores_template self tickets template1 template2 :
  (build_graph self tickets template1).2
  = (build_graph self tickets template2).2.
Proof.
  unfold build_graph.
  destruct (find_explicit_connections tickets); [done|].
  simpl. by rewrite !process_tickets_trees.
Qed.

(** *** Code sections *)

Lemma split_one_line_app c a b :
  PyStr.split c a = [a] →
  PyStr.split c (a +:+ String c b) = a :: PyStr.split c b.
Proof.
  induction a as [|x a IH]; simpl.
  - intros _. by rewrite Ascii.eqb_refl.
  - destruct (Ascii.eqb x c); [done|].
    destruct (PyStr.split c a) as [|p ps] eqn:Hsplit.
    + destruct (split_cons_hd c a) as [? Hne]. congruence.
    + intros [= -> ->]. by rewrite IH.
Qed.

Lemma split_join (lines : list string) :
  lines ≠ [] → Forall one_line lines →
  PyStr.split PyStr.newline (PyStr.join PyStr.nl lines) = lines.
Proof.
  induction lines as [|l [|l' rest] IH]; intros Hne Hall; [done|..].
  - apply Forall_cons in Hall as [Hl _]. exact Hl.
  - apply Forall_cons in Hall as [Hl Hall].
    change (PyStr.join PyStr.nl (l :: l' :: rest))
      with (l +:+ String PyStr.newline (PyStr.join PyStr.nl (l' :: rest))).
    rewrite split_one_line_app by done. f_equal. by apply IH.
Qed.

Lemma lstrip_head s :
  PyStr.lstrip s = ""
  ∨ ∃ c r, PyStr.lstrip s = String c r ∧ PyStr.is_space c = false.
Proof.
  induction s as [|c s IH]; [by left|]. simpl.
  destruct (PyStr.is_space c) eqn:Hc; [done|]. right. by exists c, s.
Qed.

Lemma strip_head s :
  PyStr.strip s = ""
  ∨ ∃ c r, PyStr.strip s = String c r ∧ PyStr.is_space c = false.
Proof.
  unfold PyStr.strip.
  destruct (lstrip_head s) as [->|(c & r & -> & Hc)]; [by left|].
  right. simpl. rewrite Hc. simpl. by eexists _, _.
Qed.

Lemma strip_not_indented s : PyStr.startswith (PyStr.strip s) "    " = false.
Proof.
  unfold PyStr.startswith.
  destruct (strip_head s) as [->|(c & r & -> & Hc)]; [done|].
  change (String.prefix "    " (String c r))
    with (if ascii_dec " " c then String.prefix "   " r else false).
  destruct (ascii_dec " " c) as [<-|]; [|done]. discriminate.
Qed.

Lemma not_fence_not_marker line :
  is_fence line = false →
  any_startswith (PyStr.strip line) code_block_markers = false.
Proof.
  unfold is_fence, any_startswith. simpl.
  rewrite strip_not_indented. by rewrite !orb_false_r.
Qed.

Lemma scan_block_line st line :
  indented line = true → is_fence line = false →
  scan_line st line
  = mkScan (code_sections st) true (current_block st ++ [PyStr.strip line]).
Proof.
  intros Hind Hfence. unfold scan_line.
  fold (is_fence line). fold (indented line).
  rewrite Hfence, Hind, (not_fence_not_marker line Hfence).
  destruct st as [cs [] cb]; done.
Qed.

Lemma scan_fence_line st line :
  is_fence line = true →
  scan_line st line
  = set_in_code_block (negb (in_code_block st))
      (if in_code_block st then flush_block st else st).
Proof. intros Hfence. unfold scan_line. fold (is_fence line). by rewrite Hfence. Qed.

Lemma scan_block_lines body cs b cb :
  Forall block_line body → body ≠ [] →
  fold_left scan_line body (mkScan cs b cb)
  = mkScan cs true (cb ++ (PyStr.strip <$> body)).
Proof.
  revert b cb. induction body as [|l body IH]; intros b cb Hall Hne; [done|].
  apply Forall_cons in Hall as [(Hind & Hfence & _) Hall].
  simpl. rewrite scan_block_line by done. simpl.
  destruct body as [|l' body'].
  - done.
  - rewrite IH by done. by rewrite <- app_assoc.
Qed.
(** X11. A text whose lines all start with four spaces, none of them a
    fence, is one code section: its lines, stripped, joined by line
    feeds. *)
Theorem extract_indented_block first rest :
  Forall block_line (first :: rest) →
  _extract_code_sections (PyStr.join PyStr.nl (first :: rest))
  = [PyStr.join PyStr.nl (PyStr.strip <$> first :: rest)].
Proof.
  intros Hall. unfold _extract_code_sections.
  rewrite split_join; [|done|].
  - rewrite scan_block_lines by done. done.
  - eapply Forall_impl; [exact Hall|]. by intros l (_ & _ & ?).
Qed.

(** X12. A fenced block whose body lines all start with four spaces is
    one code section, the stripped body lines without the two fence
    lines; with an empty body there is no section. *)
Theorem extract_fenced_block opening body closing :
  fence_line opening → fence_line closing → Forall block_line body →
  _extract_code_sections
    (PyStr.join PyStr.nl (opening :: body ++ [closing]))
  = match body with
    | [] => []
    | _ :: _ => [PyStr.join PyStr.nl (PyStr.strip <$> body)]
    end.
Proof.
  intros [Hopen Hopen1] [Hclose Hclose1] Hall. unfold _extract_code_sections.
  rewrite split_join; [|done|].
  - simpl. rewrite scan_fence_line by done.
    change (set_in_code_block _ _) with (mkScan [] true []).
    rewrite fold_left_app. simpl.
    destruct body as [|l body].
    + simpl. rewrite scan_fence_line by done. done.
    + rewrite scan_block_lines by done.
      rewrite scan_fence_line by done. done.
  - constructor; [done|]. apply Forall_app. split.
    + eapply Forall_impl; [exact Hall|]. by intros l (_ & _ & ?).
    + by constructor.
Qed.

Lemma successive_runs_app lines more runs :
  successive_runs lines runs → successive_runs (lines ++ more) runs.
Proof.
  revert lines. induction runs as [|run runs IH]; intros lines; [done|].
  intros (before & after & -> & Hafter). exists before, (after ++ more).
  split; [by rewrite <- !app_assoc|]. by apply IH.
Qed.

Lemma successive_runs_snoc lines run runs :
  successive_runs lines runs → successive_runs (lines ++ run) (runs ++ [run]).
Proof.
  revert lines. induction runs as [|r runs IH]; intros lines.
  - intros _. exists lines, []. by rewrite app_nil_r.
  - intros (before & after & -> & Hafter). exists before, (after ++ run).
    split; [by rewrite <- !app_assoc|]. by apply IH.
Qed.

Lemma flush_block_inv done st :
  scan_inv done st →
  ∃ runs, successive_runs done runs ∧ Forall section_run runs
          ∧ flush_block st
            = mkScan (section_text <$> runs) (in_code_block st) [].
Proof.
  destruct st as [cs b cb].
  intros (runs & before & run & -> & Hruns & Hok & Hcs & Hcb & Hplain & _).
  simpl in *. subst cs cb. destruct run as [|l run].
  - exists runs. rewrite app_nil_r. done.
  - exists (runs ++ [l :: run]). split; [by apply successive_runs_snoc|].
    split.
    { apply Forall_app. split; [done|].
      constructor; [by split|constructor]. }
    unfold flush_block. simpl. by rewrite fmap_app.
Qed.

Lemma scan_line_inv done st line :
  scan_inv done st → scan_inv (done ++ [line]) (scan_line st line).
Proof.
  intros Hinv.
  assert (∀ b runs, successive_runs done runs → Forall section_run runs →
            scan_inv (done ++ [line])
                     (mkScan (section_text <$> runs) b [])) as Hempty.
  { intros b runs Hruns Hok. exists runs, (done ++ [line]), [].
    rewrite app_nil_r. repeat split; try done.
    by apply successive_runs_app. }
  destruct (flush_block_inv done st Hinv) as (flushed & Hfl & Hflok & Hflush).
  destruct st as [cs b cb].
  destruct Hinv
    as (runs & before & run & -> & Hruns & Hok & Hcs & Hcb & Hplain & Hout).
  simpl in *. subst cs cb. unfold scan_line. fold (is_fence line).
  fold (indented line).
  destruct (is_fence line) eqn:Hfence.
  - destruct b; cbn [in_code_block negb].
    + rewrite Hflush. by apply Hempty.
    + pose proof (Hout eq_refl) as ->.
      apply Hempty; [by rewrite app_nil_r|done].
  - rewrite (not_fence_not_marker line Hfence).
    destruct b; cbn [in_code_block negb andb].
    + destruct (negb (indented line)
                && negb (PyStr.is_empty (PyStr.strip line))).
      * rewrite Hflush. by apply Hempty.
      * exists runs, before, (run ++ [line]).
        rewrite fmap_app, app_assoc. repeat split; try done.
        apply Forall_app. split; [done|].
        constructor; [|constructor]. by apply not_fence_not_marker.
    + pose proof (Hout eq_refl) as ->.
      destruct (indented line); cbn [in_code_block set_in_code_block].
      * exists runs, before, [line]. rewrite app_nil_r.
        repeat split; try done.
        constructor; [|constructor]. by apply not_fence_not_marker.
      * apply Hempty; [by rewrite app_nil_r|done].
Qed.

Lemma fold_scan_inv done todo st :
  scan_inv done st → scan_inv (done ++ todo) (fold_left scan_line todo st).
Proof.
  revert done st. induction todo as [|l todo IH]; intros done st Hinv.
  - by rewrite app_nil_r.
  - simpl. rewrite cons_middle, app_assoc. by apply IH, scan_line_inv.
Qed.

(** X13. Whatever the text, the extracted code sections are, in order,
    the joins of successive runs of consecutive lines of the text that do
    not overlap: each run is not empty, each of its lines is stripped of
    surrounding white space, and none starts with a marker once stripped,
    so that fence lines never enter a section. *)
Theorem extracted_sections_are_stripped_lines text :
  ∃ runs,
    successive_runs (PyStr.split PyStr.newline text) runs
    ∧ Forall section_run runs
    ∧ _extract_code_sections text = section_text <$> runs.
Proof.
  unfold _extract_code_sections.
  destruct (flush_block_inv (PyStr.split PyStr.newline text)
              (fold_left scan_line (PyStr.split PyStr.newline text)
                         (mkScan [] false [])))
    as (runs & Hruns & Hok & ->).
  { apply (fold_scan_inv []). exists [], [], []. by repeat split. }
  by exists runs.
Qed.

(** *** The Code fragments of a build *)

Lemma filter_code_imap (name : nat → string) (codes : list string) :
  filter (λ c, node_section c = "Code")
    (imap (λ i code, mkNode (name i) "Code" code) codes)
  = imap (λ i code, mkNode (name i) "Code" code) codes.
Proof.
  revert name. induction codes as [|c codes IH]; intros name; [done|].
  rewrite imap_cons, filter_cons_True by done. f_equal.
  apply (IH (name ∘ S)).
Qed.

Lemma rule_nodes_description tid ticket :
  find (is_section "Description") (rule_nodes tid ticket)
  = if truthy (description_content ticket)
    then Some (mkNode (py_str tid +:+ "_description") "Description"
                 (py_str (description_content ticket)))
    else None.
Proof.
  unfold rule_nodes.
  destruct (truthy (summary_content ticket)),
           (truthy (description_content ticket)),
           (truthy (priority ticket)); done.
Qed.

Lemma rule_nodes_code tid ticket :
  filter (λ c, node_section c = "Code") (rule_nodes tid ticket)
  = if truthy (description_content ticket)
    then imap (λ i code,
                 mkNode (py_str tid +:+ "_code_" +:+ pretty i) "Code" code)
              (_extract_code_sections (py_str (description_content ticket)))
    else [].
Proof.
  unfold rule_nodes. rewrite !filter_app.
  destruct (truthy (summary_content ticket)),
           (truthy (description_content ticket)),
           (truthy (priority ticket));
    rewrite ?(filter_code_imap (λ i, py_str tid +:+ "_code_" +:+ pretty i));
    done.
Qed.

(** X14. In the tree of a ticket of a build, the "has_code" edges are
    exactly one edge from the ticket's Description fragment to each of
    its Code fragments, in order. *)
Theorem build_tree_code_edges tid ticket :
  filter (has_label "has_code")
    (tree_edges (construct_ticket_tree (rule_nodes tid ticket)))
  = (λ c, (py_str tid +:+ "_description", node_id c, "has_code"))
      <$> filter (λ c, node_section c = "Code") (rule_nodes tid ticket).
Proof.
  destruct (rule_nodes tid ticket) as [|first rest] eqn:Hnodes; [done|].
  change (tree_edges (construct_ticket_tree (first :: rest)))
    with (flat_map (node_edges (select_root first (first :: rest))
                      (first :: rest)) (first :: rest)).
  rewrite has_code_edges_of. unfold code_parent_edges.
  rewrite <- Hnodes, rule_nodes_description, rule_nodes_code.
  by destruct (truthy (description_content ticket)).
Qed.


(** *** Symmetry, failure and the log *)

Lemma SFmul_comm prec emax x y : SFmul prec emax x y = SFmul prec emax y x.
Proof.
  destruct x as [sx|sx| |sx mx ex], y as [sy|sy| |sy my ey]; simpl;
    rewrite ?(xorb_comm sx sy); try done.
  by rewrite Pos.mul_comm, Z.add_comm.
Qed.

Lemma float_mul_comm (x y : float) : (x * y = y * x)%float.
Proof.
  apply Prim2SF_inj. rewrite !mul_spec. apply SFmul_comm.
Qed.

Lemma dot_comm_from (vec1 vec2 : list float) acc :
  fold_left (λ acc xy, (acc + xy.1 * xy.2)%float) (zip vec1 vec2) acc
  = fold_left (λ acc xy, (acc + xy.1 * xy.2)%float) (zip vec2 vec1) acc.
Proof.
  revert vec2 acc. induction vec1 as [|x vec1 IH]; intros [|y vec2] acc;
    try done.
  simpl. rewrite (float_mul_comm x y). apply IH.
Qed.

Lemma dot_comm vec1 vec2 : dot vec1 vec2 = dot vec2 vec1.
Proof. apply dot_comm_from. Qed.

Lemma cosine_similarity_comm vec1 vec2 :
  length vec1 = length vec2 →
  cosine_similarity vec1 vec2 = cosine_similarity vec2 vec1.
Proof.
  intros Hlen. unfold cosine_similarity.
  rewrite !decide_True by done.
  by rewrite dot_comm, (float_mul_comm (norm vec1)).
Qed.

(** X15. [cosine_similarity] is symmetric: on vectors of one length both
    orders return the same value, and on vectors of different lengths both
    orders raise the shape error. *)
Theorem cosine_similarity_symmetric vec1 vec2 :
  match cosine_similarity vec1 vec2, cosine_similarity vec2 vec1 with
  | inr s12, inr s21 => s12 = s21
  | inl (ShapeError n m), inl (ShapeError m' n') =>
      n = n' ∧ m = m' ∧ n ≠ m
  | _, _ => False
  end.
Proof.
  destruct (decide (length vec1 = length vec2)) as [Hlen|Hlen].
  - rewrite (cosine_similarity_comm vec1 vec2 Hlen).
    unfold cosine_similarity. by rewrite decide_True.
  - unfold cosine_similarity.
    rewrite decide_False by done. rewrite decide_False by done. done.
Qed.

(** X16. The score of two trees does not depend on their order, whether
    the embeddings exist or not (the error line printed may differ). *)
Theorem calculate_similarity_score_symmetric self a b :
  (calculate_similarity self a b).2 = (calculate_similarity self b a).2.
Proof.
  unfold calculate_similarity.
  destruct (embedding_model self (get_ticket_title a)) as [ea|va],
           (embedding_model self (get_ticket_title b)) as [eb|vb];
    simpl; try done.
  destruct (decide (length va = length vb)) as [Hlen|Hlen].
  - rewrite (cosine_similarity_comm va vb Hlen).
    by destruct (cosine_similarity vb va).
  - unfold cosine_similarity.
    rewrite decide_False by done. rewrite decide_False by done. done.
Qed.

Lemma map_exn_inl {A B} (f : A → Exn + B) xs e :
  map_exn f xs = inl e → ∃ x, x ∈ xs ∧ f x = inl e.
Proof.
  induction xs as [|x xs IH]; [done|]. simpl.
  destruct (f x) as [e'|y] eqn:Hx; simpl.
  - intros [= ->]. exists x. split; [left|done].
  - destruct (map_exn f xs) as [e'|ys]; simpl; [|done].
    intros [= ->]. destruct IH as (x' & ? & ?); [done|].
    exists x'. split; [by right|done].
Qed.

Lemma find_explicit_connections_raises tickets e :
  find_explicit_connections tickets = inl e →
  ∃ key, e = KeyError key ∧ key ∈ link_keys.
Proof.
  unfold find_explicit_connections.
  destruct (map_exn ticket_connections tickets) as [e'|css] eqn:Hmap;
    [|done].
  simpl. intros [= ->].
  apply map_exn_inl in Hmap as (t & _ & Ht).
  unfold ticket_connections in Ht. destruct (links t) as [declared|]; [|done].
  apply map_exn_inl in Ht as (link & _ & Hl).
  unfold link_connection, subscript in Hl.
  destruct (fields t !! "id"); simpl in Hl;
    [|injection Hl as <-; exists "id"; split; [done|set_solver]].
  destruct (link !! "ticket_id"); simpl in Hl;
    [|injection Hl as <-; exists "ticket_id"; split; [done|set_solver]].
  destruct (link !! "relationship"); simpl in Hl; [done|].
  injection Hl as <-. exists "relationship". split; [done|set_solver].
Qed.

Lemma find_explicit_connections_inr_links_ok tickets cs :
  find_explicit_connections tickets = inr cs → Forall links_ok tickets.
Proof.
  unfold find_explicit_connections.
  destruct (map_exn ticket_connections tickets) as [e|css] eqn:Hcss; [done|].
  intros _. apply map_exn_inr_inv in Hcss. clear -Hcss.
  induction Hcss as [|t c ts cs Ht _ IH]; constructor; [|done].
  by eapply ticket_connections_inr_inv.
Qed.

(** X17. When the links of some ticket cannot be read, the build raises
    [KeyError] for one of the keys [id], [ticket_id], [relationship]: no
    graph is returned, and the log is that of the per-ticket processing
    alone. *)
Theorem build_graph_unreadable_links self tickets template :
  ¬ Forall links_ok tickets →
  ∃ key, build_graph self tickets template
         = ((process_tickets tickets template).1, inl (KeyError key))
         ∧ key ∈ link_keys.
Proof.
  intros Hbad. unfold build_graph.
  destruct (find_explicit_connections tickets) as [e|cs] eqn:Hexp.
  - apply find_explicit_connections_raises in Hexp as (key & -> & Hkey).
    by exists key.
  - by apply find_explicit_connections_inr_links_ok in Hexp.
Qed.

(** The statement of X17 at a list with a linked ticket that has no
    [id]. *)
Lemma build_graph_unreadable_links_witness :
  ∃ key, build_graph half_engine [ticket_A; ticket_without_id_linked]
           (mkTemplate None)
         = ((process_tickets [ticket_A; ticket_without_id_linked]
               (mkTemplate None)).1, inl (KeyError key))
         ∧ key ∈ link_keys.
Proof.
  apply (build_graph_unreadable_links half_engine
           [ticket_A; ticket_without_id_linked] (mkTemplate None)).
  intros Hok. apply Forall_cons in Hok as [_ Hok].
  apply Forall_cons in Hok as [[[? Hid] _] _]. vm_compute in Hid. discriminate.
Defined.

Lemma connection_events_app l1 l2 :
  connection_events (l1 ++ l2) = connection_events l1 ++ connection_events l2.
Proof. apply List.filter_app. Qed.

Lemma connection_events_none log :
  Forall (λ ev, is_connection_event ev = false) log →
  connection_events log = [].
Proof.
  induction 1 as [|ev log Hev _ IH]; [done|]. simpl. by rewrite Hev.
Qed.

Lemma connection_events_all log :
  Forall (λ ev, is_connection_event ev = true) log →
  connection_events log = log.
Proof.
  induction 1 as [|ev log Hev _ IH]; [done|]. simpl. by rewrite Hev, IH.
Qed.

Lemma for_each_log_Forall {A B} (P : Event → Prop) (xs : list A)
    (body : A → list Event * list B) :
  (∀ x, Forall P (body x).1) → Forall P (for_each xs body).1.
Proof.
  intros Hbody. induction xs as [|x xs IH]; [constructor|].
  simpl. apply Forall_app. split; [apply Hbody|apply IH].
Qed.

Lemma process_tickets_no_connection_event tickets template :
  Forall (λ ev, is_connection_event ev = false)
         (process_tickets tickets template).1.
Proof.
  apply for_each_log_Forall. intros t. unfold process_ticket.
  destruct (parse_ticket_with_rules t); simpl.
  - by repeat constructor.
  - apply Forall_app. split; [|by repeat constructor].
    destruct (llm_loop_log t (default [] (sections template)) [])
      as [[Hlog _]|[Hlog _]]; unfold parse_ticket_with_llm; rewrite Hlog;
      by repeat constructor.
Qed.

Lemma find_implicit_no_connection_event self trees :
  Forall (λ ev, is_connection_event ev = false)
         (find_implicit_connections self trees).1.
Proof.
  apply for_each_log_Forall. intros it.
  apply for_each_log_Forall. intros b.
  unfold compare_pair, calculate_similarity. simpl.
  destruct (bind_exn _ _); simpl; by repeat constructor.
Qed.

(** X18. A build that returns a graph has logged each of its explicit
    connections and then each of its implicit connections, once and in
    order; a build that raises has logged no connection. *)
Theorem build_graph_logs_connections self tickets template :
  connection_events (build_graph self tickets template).1
  = match (build_graph self tickets template).2 with
    | inr g => (LogExplicitConnection <$> explicit_connections g)
               ++ (LogImplicitConnection <$> implicit_connections g)
    | inl _ => []
    end.
Proof.
  unfold build_graph.
  destruct (find_explicit_connections tickets) as [e|cs]; simpl.
  - apply connection_events_none, process_tickets_no_connection_event.
  - rewrite !connection_events_app.
    rewrite (connection_events_none (process_tickets _ _).1)
      by apply process_tickets_no_connection_event.
    rewrite (connection_events_none (find_implicit_connections _ _).1)
      by apply find_implicit_no_connection_event.
    rewrite !connection_events_all; [done|..].
    + apply Forall_forall. by intros ev (c & -> & _)%list_elem_of_fmap.
    + apply Forall_forall. by intros ev (c & -> & _)%list_elem_of_fmap.
Qed.


(** *** The graph of the demonstration script *)

Lemma extends_refl P g : extends P g g.
Proof.
  split; [done|]. split; [done|]. exists []. by rewrite app_nil_r.
Qed.

Lemma extends_trans P g1 g2 g3 :
  extends P g1 g2 → extends P g2 g3 → extends P g1 g3.
Proof.
  intros (Hk1 & Ha1 & new1 & He1 & Hn1) (Hk2 & Ha2 & new2 & He2 & Hn2).
  split; [auto|]. split; [auto|]. exists (new1 ++ new2).
  rewrite He2, He1, app_assoc. split; [done|]. by apply Forall_app.
Qed.

Lemma extends_weaken (P Q : NodeKey * NodeKey * EdgeAttrs → Prop) g g' :
  (∀ e, P e → Q e) → extends P g g' → extends Q g g'.
Proof.
  intros HPQ (Hk & Ha & new & He & Hn). split; [done|]. split; [done|].
  exists new. split; [done|]. eapply Forall_impl; eauto.
Qed.

Lemma fold_left_extends {A} P (f : MultiDiGraph → A → MultiDiGraph) xs g :
  (∀ g x, x ∈ xs → extends P g (f g x)) → extends P g (fold_left f xs g).
Proof.
  revert g. induction xs as [|x xs IH]; intros g Hf; [apply extends_refl|].
  simpl. eapply extends_trans.
  - apply Hf. left.
  - apply IH. intros g' x' Hx'. apply Hf. by right.
Qed.

Lemma set_attrs_keys key attrs nodes k :
  k ∈ nodes.*1 → k ∈ (set_attrs key attrs nodes).*1.
Proof.
  induction nodes as [|[k' a'] nodes IH]; [by intros ?%elem_of_nil|].
  simpl. destruct (decide (k' = key)); [done|].
  rewrite !fmap_cons, !elem_of_cons. intros [?|?]; auto.
Qed.

Lemma set_attrs_attrs key attrs nodes k a :
  (k, Some a) ∈ nodes → ∃ a', (k, Some a') ∈ set_attrs key attrs nodes.
Proof.
  induction nodes as [|[k' a'] nodes IH]; [by intros ?%elem_of_nil|].
  simpl. intros [Heq|Hin]%elem_of_cons.
  - injection Heq as <- <-. destruct (decide (k = key)); eexists; by left.
  - destruct (decide (k' = key)).
    + exists a. by right.
    + destruct (IH Hin) as [a'' ?]. exists a''. by right.
Qed.

Lemma set_attrs_set key attrs nodes :
  (key, Some attrs) ∈ set_attrs key attrs nodes.
Proof.
  induction nodes as [|[k' a'] nodes IH]; [by left|].
  simpl. destruct (decide (k' = key)) as [->|]; [by left|by right].
Qed.

Lemma add_node_extends P g key attrs : extends P g (add_node g key attrs).
Proof.
  split; [intros k; apply set_attrs_keys|]. split.
  - intros k [a Ha]. by eapply set_attrs_attrs.
  - exists []. split; [by rewrite app_nil_r|constructor].
Qed.

Lemma add_node_has_attrs g key attrs : has_attrs (add_node g key attrs) key.
Proof. exists attrs. apply set_attrs_set. Qed.

Lemma ensure_node_extends P g key : extends P g (ensure_node g key).
Proof.
  unfold ensure_node. destruct (has_node g key); [apply extends_refl|].
  split; [|split].
  - intros k Hk. unfold node_keys. simpl. rewrite fmap_app.
    apply elem_of_app. by left.
  - intros k [a Ha]. exists a. simpl. apply elem_of_app. by left.
  - exists []. split; [by rewrite app_nil_r|constructor].
Qed.

Lemma ensure_node_has g key : key ∈ node_keys (ensure_node g key).
Proof.
  unfold ensure_node, has_node.
  destruct (bool_decide _) eqn:Hin.
  - by apply bool_decide_eq_true in Hin.
  - unfold node_keys. simpl. rewrite fmap_app. apply elem_of_app. right.
    by left.
Qed.

Lemma add_edge_extends (P : NodeKey * NodeKey * EdgeAttrs → Prop)
    g u v attrs :
  P (u, v, attrs) → extends P g (add_edge g u v attrs).
Proof.
  intros HP.
  destruct (ensure_node_extends P g u) as (Hk1 & Ha1 & _).
  destruct (ensure_node_extends P (ensure_node g u) v) as (Hk2 & Ha2 & _).
  split; [|split].
  - intros k Hk. by apply Hk2, Hk1.
  - intros k Hk. by apply Ha2, Ha1.
  - exists [(u, v, attrs)]. split; [|by constructor].
    unfold add_edge, ensure_node. simpl.
    by destruct (has_node g u), (has_node _ v).
Qed.

Lemma add_edge_endpoints g u v attrs :
  u ∈ node_keys (add_edge g u v attrs)
  ∧ v ∈ node_keys (add_edge g u v attrs)
  ∧ (u, v, attrs) ∈ g_edges (add_edge g u v attrs).
Proof.
  split; [|split].
  - destruct (ensure_node_extends (λ _, True) (ensure_node g u) v)
      as (Hk & _). apply Hk, ensure_node_has.
  - apply (ensure_node_has (ensure_node g u) v).
  - unfold add_edge. simpl. apply elem_of_app. right. by left.
Qed.

Lemma add_edge_edges g u v attrs :
  g_edges (add_edge g u v attrs) = g_edges g ++ [(u, v, attrs)].
Proof.
  unfold add_edge, ensure_node. simpl.
  by destruct (has_node g u), (has_node _ v).
Qed.

Lemma fold_add_node_edges {A} (key : A → NodeKey) (attrs : A → NodeAttrs)
    xs g :
  g_edges (fold_left (λ g x, add_node g (key x) (attrs x)) xs g) = g_edges g.
Proof.
  revert g. induction xs as [|x xs IH]; intros g; [done|].
  simpl. by rewrite IH.
Qed.

Lemma fold_add_edge_edges {A} (u v : A → NodeKey) (attrs : A → EdgeAttrs)
    xs g :
  g_edges (fold_left (λ g x, add_edge g (u x) (v x) (attrs x)) xs g)
  = g_edges g ++ ((λ x, (u x, v x, attrs x)) <$> xs).
Proof.
  revert g. induction xs as [|x xs IH]; intros g; simpl.
  - by rewrite app_nil_r.
  - by rewrite IH, add_edge_edges, <- app_assoc.
Qed.

Lemma add_tree_edges g tree :
  g_edges (add_tree g tree)
  = g_edges g ++ (tree_edge tree <$> tree_edges tree).
Proof.
  unfold add_tree.
  rewrite (fold_add_edge_edges (λ e, tree_key tree e.1.1)
             (λ e, tree_key tree e.1.2) (λ e, Hierarchical e.2)).
  by rewrite (fold_add_node_edges (λ n, tree_key tree (node_id n))).
Qed.

Lemma add_tree_extends g tree : extends (λ _, True) g (add_tree g tree).
Proof.
  unfold add_tree.
  match goal with
  | |- extends _ g (fold_left ?f2 ?es (fold_left ?f1 ?ns g)) =>
      apply (extends_trans _ g (fold_left f1 ns g));
        [apply (fold_left_extends _ f1 ns g)
        |apply (fold_left_extends _ f2 es)]
  end.
  - intros g' n _. apply add_node_extends.
  - intros g' e _. by apply add_edge_extends.
Qed.

Lemma fold_add_node_attrs (key : TicketNode → NodeKey)
    (attrs : TicketNode → NodeAttrs) nodes g :
  Forall (λ n, has_attrs
                 (fold_left (λ g n, add_node g (key n) (attrs n)) nodes g)
                 (key n)) nodes.
Proof.
  revert g. induction nodes as [|n nodes IH]; intros g; [constructor|].
  simpl. constructor; [|apply IH].
  destruct (fold_left_extends (λ _, True)
              (λ g n, add_node g (key n) (attrs n)) nodes
              (add_node g (key n) (attrs n))) as (_ & Ha & _).
  { intros g' x _. apply add_node_extends. }
  apply Ha, add_node_has_attrs.
Qed.

Lemma add_tree_attrs g tree :
  Forall (λ n, has_attrs (add_tree g tree) (tree_key tree (node_id n)))
         (tree_nodes tree).
Proof.
  unfold add_tree.
  eapply Forall_impl;
    [apply (fold_add_node_attrs (λ n, tree_key tree (node_id n)))|].
  intros n Hn. simpl in Hn.
  match goal with
  | |- has_attrs (fold_left ?f ?es ?g1) _ =>
      destruct (fold_left_extends (λ _, True) f es g1) as (_ & Ha & _)
  end.
  { intros g' e _. by apply add_edge_extends. }
  apply Ha, Hn.
Qed.

Lemma add_explicit_extends g c : extends is_explicit g (add_explicit g c).
Proof.
  unfold add_explicit.
  assert (is_explicit (section_key c.1.1 "_summary",
                       section_key c.1.2 "_summary", Explicit c.2)) as H1
    by by eexists.
  destruct (_ && _).
  - eapply extends_trans; apply add_edge_extends; [done|by eexists].
  - by apply add_edge_extends.
Qed.

Lemma add_implicit_extends g c :
  extends is_strong_implicit g (add_implicit g c).
Proof.
  unfold add_implicit.
  destruct (_ <=? c.2)%float eqn:Hle; [|apply extends_refl].
  cbv zeta.
  match goal with
  | |- extends _ g (if _ then add_edge ?g1 _ _ _ else _) =>
      set (mid := g1); apply (extends_trans _ g mid)
  end.
  - subst mid. destruct (_ && _); [|apply extends_refl].
    apply add_edge_extends. by eexists.
  - destruct (has_node mid _ && _); [|apply extends_refl].
    apply add_edge_extends. by eexists.
Qed.

Lemma connections_extend knowledge_graph :
  extends explicit_or_implicit
    (fold_left add_tree (trees knowledge_graph) (mkDiGraph [] []))
    (create_networkx_graph knowledge_graph).
Proof.
  unfold create_networkx_graph.
  match goal with
  | |- extends _ ?g (fold_left ?f2 ?es (fold_left ?f1 ?ns ?g)) =>
      apply (extends_trans _ g (fold_left f1 ns g));
        [apply (fold_left_extends _ f1 ns g)
        |apply (fold_left_extends _ f2 es)]
  end.
  - intros g c _.
    eapply extends_weaken; [|apply add_explicit_extends]. by left.
  - intros g c _.
    eapply extends_weaken; [|apply add_implicit_extends]. by right.
Qed.

Lemma fold_add_tree_attrs trees g :
  Forall (λ tree,
            Forall (λ n, has_attrs (fold_left add_tree trees g)
                           (tree_key tree (node_id n)))
                   (tree_nodes tree)) trees.
Proof.
  revert g. induction trees as [|tree trees IH]; intros g; [constructor|].
  simpl. constructor; [|apply IH].
  eapply Forall_impl; [apply (add_tree_attrs g tree)|].
  intros n Hn. simpl in Hn.
  destruct (fold_left_extends (λ _, True) add_tree trees (add_tree g tree))
    as (_ & Ha & _).
  { intros g' t _. apply add_tree_extends. }
  by apply Ha.
Qed.

(** X19. Every fragment of every tree is a node of the graph that
    [create_networkx_graph] makes, under the key of its tree and
    identifier, and the node carries attributes. *)
Theorem graph_has_every_fragment knowledge_graph :
  Forall (λ tree,
            Forall (λ n, has_attrs (create_networkx_graph knowledge_graph)
                           (tree_key tree (node_id n)))
                   (tree_nodes tree))
         (trees knowledge_graph).
Proof.
  destruct (connections_extend knowledge_graph) as (_ & Ha & _).
  eapply Forall_impl;
    [apply (fold_add_tree_attrs (trees knowledge_graph) (mkDiGraph [] []))|].
  intros tree Htree. simpl in Htree.
  eapply Forall_impl; [exact Htree|]. intros n Hn. simpl in Hn.
  by apply Ha.
Qed.

Lemma fold_add_tree_edges trees g :
  g_edges (fold_left add_tree trees g)
  = g_edges g ++ flat_map (λ tree, tree_edge tree <$> tree_edges tree) trees.
Proof.
  revert g. induction trees as [|tree trees IH]; intros g; simpl.
  - by rewrite app_nil_r.
  - by rewrite IH, add_tree_edges, <- app_assoc.
Qed.




(** X21. Every implicit edge of the graph has a similarity of at least
    0.8, whatever threshold the connections were found with. *)
Theorem graph_implicit_edges_strong knowledge_graph :
  Forall (λ e, match e.2 with
               | Implicit s => (0x1.999999999999ap-1 <=? s)%float = true
               | _ => True
               end)
         (g_edges (create_networkx_graph knowledge_graph)).
Proof.
  destruct (connections_extend knowledge_graph) as (_ & _ & new & -> & Hnew).
  rewrite fold_add_tree_edges. simpl.
  apply Forall_app. split.
  - apply Forall_forall. intros e He.
    apply list_elem_of_In, in_flat_map in He as (tree & _ & He).
    apply list_elem_of_In, list_elem_of_fmap in He as (e' & -> & _). done.
  - eapply Forall_impl; [exact Hnew|].
    by intros e [[r ->]|(s & -> & Hs)].
Qed.

Lemma summary_edge_in_extends P g g' c :
  extends P g g' → summary_edge_in g c → summary_edge_in g' c.
Proof.
  intros (Hk & _ & new & He & _) (Hu & Hv & Hedge).
  split; [auto|]. split; [auto|]. rewrite He. apply elem_of_app. by left.
Qed.

Lemma add_explicit_summary g c : summary_edge_in (add_explicit g c) c.
Proof.
  unfold add_explicit. cbv zeta.
  match goal with
  | |- summary_edge_in (if _ then add_edge ?g1 ?u ?v ?a else _) _ =>
      assert (summary_edge_in g1 c) as H1 by apply add_edge_endpoints;
      destruct (has_node g1 _ && _); [|done];
      apply (summary_edge_in_extends (λ _, True) g1); [|done];
      by apply add_edge_extends
  end.
Qed.

Lemma fold_add_explicit_summary cs g :
  Forall (summary_edge_in (fold_left add_explicit cs g)) cs.
Proof.
  revert g. induction cs as [|c cs IH]; intros g; [constructor|].
  simpl. constructor; [|apply IH].
  apply (summary_edge_in_extends is_explicit (add_explicit g c));
    [|apply add_explicit_summary].
  apply fold_left_extends. intros g' c' _. apply add_explicit_extends.
Qed.

(** X22. Every explicit connection has its edge in the graph, between the
    summary keys of its two tickets, and both keys are nodes of the graph,
    whether or not a tree has such a fragment. *)
Theorem graph_explicit_edges knowledge_graph :
  Forall (summary_edge_in (create_networkx_graph knowledge_graph))
         (explicit_connections knowledge_graph).
Proof.
  unfold create_networkx_graph. cbv zeta.
  eapply Forall_impl; [apply fold_add_explicit_summary|].
  intros c Hc. simpl in Hc.
  eapply (summary_edge_in_extends is_strong_implicit); [|exact Hc].
  apply fold_left_extends. intros g' c' _. apply add_implicit_extends.
Qed.

(** *** Instances *)

(** The statement of X2 at the ticket with identifier [ENT_1]. *)
Lemma pipeline_tree_id_witness :
  tree_id (construct_ticket_tree (rule_nodes (SStr "ENT_1") underscore_ticket))
  = hd "" (PyStr.split underscore "ENT_1").
Proof.
  apply (pipeline_tree_id (SStr "ENT_1") underscore_ticket).
  vm_compute. discriminate.
Defined.

(** The statement of X11 at a text of two indented lines. *)
Lemma extract_indented_block_witness :
  _extract_code_sections (PyStr.join PyStr.nl ["    x = 1"; "    y = 2"])
  = [PyStr.join PyStr.nl ["x = 1"; "y = 2"]].
Proof.
  apply (extract_indented_block "    x = 1" ["    y = 2"]).
  repeat constructor; vm_compute; reflexivity.
Defined.

(** The statement of X12 at a fenced block with a language tag. *)
Lemma extract_fenced_block_witness :
  _extract_code_sections
    (PyStr.join PyStr.nl ["```python"; "    x = 1"; "    y = 2"; "```"])
  = [PyStr.join PyStr.nl ["x = 1"; "y = 2"]].
Proof.
  apply (extract_fenced_block "```python" ["    x = 1"; "    y = 2"] "```").
  - split; vm_compute; reflexivity.
  - split; vm_compute; reflexivity.
  - repeat constructor; vm_compute; reflexivity.
Defined.

(** ** The validators and the template-driven parser *)

Lemma py_eqb_sym a b : py_eqb a b = py_eqb b a.
Proof. unfold py_eqb. apply bool_decide_ext. split; by intros ->. Qed.

Lemma map_exn_names {A} (fields : A → gmap string Scalar) xs names :
  map_exn (λ x, subscript (fields x) "name") xs = inr names →
  Forall2 (λ x n, fields x !! "name" = Some n) xs names.
Proof.
  intros H%map_exn_inr_inv. eapply Forall2_impl; [exact H|].
  intros x n. unfold subscript. by destruct (fields x !! "name"); intros [= ->].
Qed.

Lemma find_relationship_named rel_type rels names :
  Forall2 (λ rel n, rel !! "name" = Some n) rels names →
  find_relationship rel_type rels = inr (first_named rel_type rels)
  ∧ py_in (SStr rel_type) names
    = bool_decide (is_Some (first_named rel_type rels)).
Proof.
  induction 1 as [|rel n rels names Hn _ [IH1 IH2]]; [done|].
  unfold first_named in *. simpl. unfold subscript. rewrite Hn. simpl.
  rewrite (py_eqb_sym (SStr rel_type) n).
  by destruct (py_eqb n (SStr rel_type)).
Qed.

(** X23. For a validator made from a template, [validate_relationship]
    returns, and its report is decided by the first relationship of the
    template with the given name: no such relationship, one error and no
    warning; a relationship that is not marked bidirectional, one warning
    about the direction and no error; a bidirectional one, nothing.  The
    two tickets play no part but in the text of the warning. *)
Theorem validate_relationship_outcome template self source_id target_id
    rel_type :
  GraphValidator_init template = inr self →
  validate_relationship self source_id target_id rel_type
  = inr match first_named rel_type
                (default [] (template_relationships template)) with
        | None => [relationship_error self rel_type]
        | Some rel =>
            if truthy (default (SBool false) (rel !! "bidirectional"))
            then []
            else [direction_warning source_id target_id rel_type]
        end.
Proof.
  unfold GraphValidator_init.
  destruct (map_exn _ _) as [e|names] eqn:Hnames; [done|].
  simpl. intros [= <-].
  apply (map_exn_names (λ rel, rel)) in Hnames.
  destruct (find_relationship_named rel_type _ _ Hnames) as [Hfind Hin].
  unfold validate_relationship. simpl. rewrite Hfind, Hin. simpl.
  destruct (first_named rel_type _) as [rel|]; simpl; [|done].
  by destruct (truthy _).
Qed.

(** The statement of X23 at the relationship [blocks] of [enum_template]. *)
Lemma validate_relationship_outcome_witness :
  ∃ self, GraphValidator_init enum_template = inr self
          ∧ validate_relationship self "A" "B" "blocks"
            = inr [direction_warning "A" "B" "blocks"].
Proof.
  eexists. split; [reflexivity|].
  apply (validate_relationship_outcome enum_template _ "A" "B" "blocks").
  reflexivity.
Defined.

Lemma enum_errors_ok ticket section :
  well_formed_spec section →
  ∃ errors, enum_errors ticket section = inr errors
            ∧ (errors = [] ↔ section_allows ticket section)
            ∧ Forall (λ e, error_severity e = "error") errors.
Proof.
  intros [[name Hname] [type Htype]].
  unfold enum_errors, subscript.
  rewrite Hname. simpl. rewrite Htype. simpl. unfold section_allows.
  destruct (key_in name ticket) eqn:Hin; simpl.
  - destruct (py_eqb type (SStr "enum")) eqn:Henum; simpl.
    + destruct (py_in _ _) eqn:Hallowed; simpl; eexists; split; try done.
      * split; [split; [|done]|constructor].
        intros _ name' type'. rewrite Hname, Htype. by intros [= <-] [= <-].
      * split; [split; [done|]|by repeat constructor].
        intros H. specialize (H name type Hname Htype Hin Henum). congruence.
    + eexists. split; [done|]. split; [split; [|done]|constructor].
      intros _ name' type'. rewrite Hname, Htype.
      intros [= <-] [= <-] _. congruence.
  - eexists. split; [done|]. split; [split; [|done]|constructor].
    intros _ name' type'. rewrite Hname. intros [= <-]. congruence.
Qed.

Lemma missing_errors_nil required ticket :
  missing_errors required ticket = []
  ↔ Forall (λ n, key_in n ticket = true) required.
Proof.
  unfold missing_errors. induction required as [|n required IH]; simpl.
  - split; [constructor|done].
  - rewrite Forall_cons. destruct (key_in n ticket); simpl.
    + rewrite IH. split; [by split|by intros [_ ?]].
    + split; [done|by intros [? _]].
Qed.

Lemma concat_nil_Forall {A} (ls : list (list A)) :
  concat ls = [] ↔ Forall (λ l, l = []) ls.
Proof.
  induction ls as [|l ls IH]; simpl.
  - split; [constructor|done].
  - rewrite Forall_cons, <- IH. split.
    + by intros [? ?]%app_eq_nil.
    + by intros [-> ->].
Qed.

(** X24. For a validator made from a template whose sections all have a
    [name] and a [type], [validate_ticket] returns a report; the report is
    empty exactly when every required section is a key of the ticket and
    every enumeration the ticket has holds one of its listed values; every
    entry has the severity [error]; and every required section that is not
    a key of the ticket has its entry. *)
Theorem validate_ticket_report template self ticket sections :
  TicketValidator_init template = inr self →
  template_sections template = Some sections →
  Forall well_formed_spec sections →
  ∃ errors,
    validate_ticket self ticket = inr errors
    ∧ (errors = []
       ↔ Forall (λ n, key_in n ticket = true) (tv_required_sections self)
         ∧ Forall (section_allows ticket) sections)
    ∧ Forall (λ e, error_severity e = "error") errors
    ∧ Forall (λ n, key_in n ticket = false → missing_error n ∈ errors)
             (tv_required_sections self).
Proof.
  intros Hinit Hsections Hwf. unfold TicketValidator_init in Hinit.
  rewrite Hsections in Hinit.
  destruct (required_names sections) as [e|required]; [done|].
  simpl in Hinit. injection Hinit as <-.
  destruct (map_exn_Forall2 (enum_errors ticket)
              (λ section errors,
                 (errors = [] ↔ section_allows ticket section)
                 ∧ Forall (λ e, error_severity e = "error") errors)
              sections) as (found & Hfound & HR).
  { eapply Forall_impl; [exact Hwf|]. intros s Hs.
    destruct (enum_errors_ok ticket s Hs) as (errs & ? & ? & ?). eauto. }
  exists (missing_errors required ticket ++ concat found).
  unfold validate_ticket. simpl. rewrite Hsections, Hfound. simpl.
  split; [done|]. split; [|split].
  - rewrite app_nil, missing_errors_nil, concat_nil_Forall.
    apply and_iff_compat_l. clear -HR.
    induction HR as [|s errs ss found [Hs _] _ IH].
    + split; constructor.
    + rewrite !Forall_cons, IH, Hs. done.
  - apply Forall_app. split.
    + unfold missing_errors. apply Forall_flat_map, Forall_forall.
      intros n _. destruct (negb _); by repeat constructor.
    + apply Forall_concat. clear -HR.
      induction HR as [|s errs ss found [_ Hs] _ IH]; by constructor.
  - apply Forall_forall. intros n Hn Habsent.
    apply elem_of_app. left. unfold missing_errors.
    apply list_elem_of_In, in_flat_map. exists n.
    split; [by apply list_elem_of_In|]. rewrite Habsent. simpl. by left.
Qed.

(** The statement of X24 at a ticket without the required [Summary]. *)
Lemma validate_ticket_report_witness :
  ∃ self errors,
    TicketValidator_init enum_template = inr self
    ∧ validate_ticket self ticket_without_summary = inr errors
    ∧ missing_error (SStr "Summary") ∈ errors.
Proof.
  eexists.
  destruct (validate_ticket_report enum_template _ ticket_without_summary _
              eq_refl eq_refl) as (errors & Herrors & _ & _ & Hmissing).
  { repeat constructor; by eexists. }
  exists errors. split; [reflexivity|]. split; [exact Herrors|].
  apply Forall_cons in Hmissing as [Hmissing _]. by apply Hmissing.
Defined.

Lemma py_eqb_refl a : py_eqb a a = true.
Proof. unfold py_eqb. by apply bool_decide_eq_true_2. Qed.

Lemma py_eqb_str n k : py_eqb n (SStr k) = true → n = SStr k.
Proof.
  unfold py_eqb. intros H%bool_decide_eq_true_1.
  by destruct n.
Qed.

Lemma py_in_elem x (l : list Scalar) : x ∈ l → py_in x l = true.
Proof.
  intros H. unfold py_in. apply existsb_exists. exists x.
  split; [by apply list_elem_of_In|apply py_eqb_refl].
Qed.

Lemma py_in_app x l1 l2 : py_in x (l1 ++ l2) = py_in x l1 || py_in x l2.
Proof. apply existsb_app. Qed.

Lemma find_section_ok section_name sections :
  Forall (λ s, is_Some (spec_fields s !! "name")) sections →
  ∃ found, find_section section_name sections = inr found
           ∧ ∀ config, found = Some config →
               config ∈ sections
               ∧ ∃ name, spec_fields config !! "name" = Some name
                         ∧ py_eqb name section_name = true.
Proof.
  induction 1 as [|s sections [name Hname] _ (found & Hfound & Hin)]; simpl.
  - by exists None.
  - unfold subscript. rewrite Hname. simpl.
    destruct (py_eqb name section_name) eqn:Heq.
    + exists (Some s). split; [done|]. intros config [= <-].
      split; [left|eauto].
    + exists found. split; [done|]. intros config Hconfig.
      destruct (Hin config Hconfig) as [? ?]. split; [by right|done].
Qed.

Lemma find_section_finds section_name sections names :
  Forall2 (λ s n, spec_fields s !! "name" = Some n) sections names →
  section_name ∈ names →
  ∃ config, find_section section_name sections = inr (Some config)
            ∧ config ∈ sections
            ∧ ∃ name, spec_fields config !! "name" = Some name
                      ∧ py_eqb name section_name = true.
Proof.
  induction 1 as [|s n sections names Hn _ IH]; [by intros ?%elem_of_nil|].
  intros Hin. simpl. unfold subscript. rewrite Hn. simpl.
  destruct (py_eqb n section_name) eqn:Heq.
  - exists s. split; [done|]. split; [left|eauto].
  - apply elem_of_cons in Hin as [->|Hin].
    { by rewrite py_eqb_refl in Heq. }
    destruct (IH Hin) as (config & ? & ? & ?).
    exists config. split; [done|]. split; [by right|done].
Qed.

Lemma parser_init_inv template self :
  TicketParser_init template = inr self →
  ∃ sections,
    template_sections template = Some sections
    ∧ tp_template self = template
    ∧ Forall2 (λ s n, spec_fields s !! "name" = Some n)
              sections (tp_sections self)
    ∧ required_names sections = inr (tp_required_sections self).
Proof.
  unfold TicketParser_init.
  destruct (template_sections template) as [sections|]; [|done].
  destruct (map_exn _ sections) as [e|names] eqn:Hnames; [done|]. simpl.
  destruct (required_names sections) as [e|required] eqn:Hrequired;
    [done|]. simpl.
  intros [= <-]. exists sections. simpl.
  split; [done|]. split; [done|]. split; [by apply map_exn_names|done].
Qed.

Lemma required_names_sub sections names required :
  Forall2 (λ s n, spec_fields s !! "name" = Some n) sections names →
  required_names sections = inr required →
  required ⊆ names.
Proof.
  unfold required_names. intros Hnames. revert required.
  induction Hnames as [|s n sections names Hn _ IH]; simpl.
  - by intros required [= <-].
  - intros required. destruct (is_required s); simpl.
    + unfold subscript at 1. rewrite Hn. simpl.
      destruct (map_exn _ _) as [e|rest]; [done|]. simpl. intros [= <-].
      intros x [->|Hx]%elem_of_cons; [left|right]. by apply (IH rest).
    + intros Hrequired x Hx. right. by apply (IH required).
Qed.

Lemma parse_predefined_ok self ticket sections section_name :
  template_sections (tp_template self) = Some sections →
  Forall well_formed_spec sections →
  ∃ found, parse_predefined self ticket section_name = inr found
           ∧ (found = [] ∨ (found = [predefined ticket section_name]
                            ∧ key_in section_name ticket = true)).
Proof.
  intros Hsections Hwf. unfold parse_predefined, validate_section.
  destruct (key_in section_name ticket); [|by exists []; auto].
  rewrite Hsections.
  destruct (find_section_ok section_name sections)
    as (found & -> & Hfound).
  { eapply Forall_impl; [exact Hwf|]. by intros s [? _]. }
  simpl. destruct found as [config|]; [|by exists []; auto].
  destruct (Hfound config eq_refl) as [Hin _].
  rewrite Forall_forall in Hwf. destruct (Hwf config Hin) as [_ [type Htype]].
  unfold subscript. rewrite Htype. simpl.
  destruct (py_eqb type (SStr "enum")); simpl.
  - destruct (py_in _ _); simpl; eexists; eauto.
  - eexists; eauto.
Qed.

(** X25. For a parser made from a template whose sections all have a
    [name] and a [type], [parse_ticket] returns; a predefined section it
    returns is a template section and a key of the ticket, with the
    ticket's value; a parsed one is an empty placeholder with confidence
    [0] for a required section, and the ticket then has a [text]; and when
    the ticket has a [text], every required section is among the names
    returned. *)
Theorem parse_ticket_sections template self ticket sections :
  TicketParser_init template = inr self →
  template_sections template = Some sections →
  Forall well_formed_spec sections →
  ∃ result,
    parse_ticket self ticket = inr result
    ∧ Forall (section_from self ticket) result
    ∧ (is_Some (ticket !! "text") →
       Forall (λ n, py_in n (ts_name <$> result) = true)
              (tp_required_sections self)).
Proof.
  intros (sections' & Hsections' & Htemplate & _ & _)%parser_init_inv
         Hsections Hwf.
  rewrite <- Htemplate in Hsections.
  destruct (map_exn_Forall2 (parse_predefined self ticket)
              (λ n found,
                 found = [] ∨ (found = [predefined ticket n]
                               ∧ key_in n ticket = true))
              (tp_sections self)) as (found & Hfound & HR).
  { apply Forall_forall. intros n _.
    by apply (parse_predefined_ok self ticket sections n). }
  assert (Forall (section_from self ticket) (concat found)) as Hpre.
  { apply Forall_concat. clear Hfound.
    assert (∀ names, Forall (λ n, n ∈ tp_sections self) names →
              Forall2 (λ n found,
                         found = [] ∨ (found = [predefined ticket n]
                                       ∧ key_in n ticket = true))
                      names found →
              Forall (Forall (section_from self ticket)) found) as Hgen.
    { clear. intros names Hall HR.
      induction HR as [|n l names found Hl _ IH]; [constructor|].
      apply Forall_cons in Hall as [Hn Hall].
      constructor; [|by apply IH].
      destruct Hl as [->|[-> Hkey]]; [constructor|].
      by repeat constructor. }
    apply (Hgen (tp_sections self)); [by apply Forall_forall|done]. }
  unfold parse_ticket. rewrite Hfound. simpl.
  destruct (bool_decide (is_Some (ticket !! "text"))) eqn:Htext.
  - apply bool_decide_eq_true_1 in Htext.
    eexists. split; [done|]. split.
    + apply Forall_app. split; [done|].
      apply Forall_fmap, Forall_forall. intros n Hn.
      apply list_elem_of_In, filter_In in Hn as [Hn%list_elem_of_In _].
      by repeat split.
    + intros _. apply Forall_forall. intros n Hn.
      rewrite fmap_app, py_in_app.
      destruct (py_in n (ts_name <$> concat found)) eqn:Hseen; [done|].
      simpl. apply py_in_elem. rewrite <- list_fmap_compose.
      apply list_elem_of_fmap. exists n. split; [done|].
      apply list_elem_of_In, filter_In. split; [by apply list_elem_of_In|].
      by rewrite Hseen.
  - exists (concat found). split; [done|]. split; [done|].
    intros Hsome. by apply bool_decide_eq_false_1 in Htext.
Qed.

(** The statement of X25 at a ticket with a [text] and no [Summary]. *)
Lemma parse_ticket_sections_witness :
  ∃ self result,
    TicketParser_init enum_template = inr self
    ∧ parse_ticket self ticket_without_summary = inr result
    ∧ py_in (SStr "Summary") (ts_name <$> result) = true.
Proof.
  eexists.
  destruct (parse_ticket_sections enum_template _ ticket_without_summary _
              eq_refl eq_refl) as (result & Hresult & _ & Hrequired).
  { repeat constructor; by eexists. }
  exists result. split; [reflexivity|]. split; [exact Hresult|].
  assert (is_Some (ticket_without_summary !! "text")) as Htext
    by by eexists.
  apply Hrequired in Htext. by apply Forall_cons in Htext as [Htext _].
Defined.

Lemma map_exn_total {A B} (f : A → Exn + B) (g : A → B) xs :
  (∀ x, x ∈ xs → f x = inr (g x)) → map_exn f xs = inr (g <$> xs).
Proof.
  induction xs as [|x xs IH]; intros H; [done|]. simpl.
  rewrite (H x) by left. simpl. rewrite IH; [done|].
  intros y Hy. apply H. by right.
Qed.

Lemma concat_predefined ticket names :
  concat ((λ n, if key_in n ticket then [predefined ticket n] else [])
            <$> names)
  = predefined ticket <$> List.filter (λ n, key_in n ticket) names.
Proof.
  induction names as [|n names IH]; [done|].
  rewrite fmap_cons. simpl. rewrite IH. by destruct (key_in n ticket).
Qed.

Lemma validate_section_clean self ticket sections section_name :
  template_sections (tp_template self) = Some sections →
  Forall2 (λ s n, spec_fields s !! "name" = Some n)
          sections (tp_sections self) →
  Forall (λ s, enum_errors ticket s = inr []) sections →
  section_name ∈ tp_sections self →
  key_in section_name ticket = true →
  validate_section self section_name (key_get section_name ticket)
  = inr true.
Proof.
  intros Hsections Hnames Hclean Hin Hkey.
  unfold validate_section. rewrite Hsections.
  destruct (find_section_finds section_name sections (tp_sections self))
    as (config & -> & Hconfig & name & Hname & Heq); [done..|].
  simpl. rewrite Forall_forall in Hclean. specialize (Hclean config Hconfig).
  destruct section_name as [| | |key]; try done.
  apply py_eqb_str in Heq as ->.
  unfold enum_errors, subscript in Hclean. rewrite Hname in Hclean.
  cbn [bind_exn] in Hclean. rewrite Hkey in Hclean.
  unfold subscript. cbn [bind_exn].
  destruct (spec_fields config !! "type") as [type|]; [|done].
  cbn [bind_exn] in *. destruct (py_eqb type (SStr "enum")); [|done].
  cbn [andb] in Hclean. by destruct (py_in _ _).
Qed.

(** X26. A ticket on which [validate_ticket] reports nothing is parsed,
    by the parser of the same template, into exactly the template sections
    that are keys of the ticket, in the template's order, each with the
    ticket's value and marked predefined: nothing is dropped and no
    placeholder is added, with or without a [text]. *)
Theorem clean_ticket_parses template validator parser ticket :
  TicketValidator_init template = inr validator →
  TicketParser_init template = inr parser →
  validate_ticket validator ticket = inr [] →
  parse_ticket parser ticket
  = inr (predefined ticket
           <$> List.filter (λ n, key_in n ticket) (tp_sections parser)).
Proof.
  intros Hvalidator
         (sections & Hsections & Htemplate & Hnames & Hrequired)%parser_init_inv
         Hclean.
  unfold TicketValidator_init in Hvalidator.
  rewrite Hsections, Hrequired in Hvalidator. simpl in Hvalidator.
  injection Hvalidator as <-.
  unfold validate_ticket in Hclean. simpl in Hclean.
  rewrite Hsections in Hclean.
  destruct (map_exn (enum_errors ticket) sections) as [e|found] eqn:Hfound;
    [done|].
  simpl in Hclean. injection Hclean as Hclean.
  apply app_eq_nil in Hclean as [Hmissing Hnone].
  apply missing_errors_nil in Hmissing. apply concat_nil_Forall in Hnone.
  assert (Forall (λ s, enum_errors ticket s = inr []) sections) as Hsection.
  { apply map_exn_inr_inv in Hfound. clear -Hfound Hnone.
    induction Hfound as [|s errors sections found Hs _ IH]; [constructor|].
    apply Forall_cons in Hnone as [-> Hnone]. constructor; [done|].
    by apply IH. }
  rewrite <- Htemplate in Hsections.
  unfold parse_ticket.
  rewrite (map_exn_total _
             (λ n, if key_in n ticket then [predefined ticket n] else [])).
  2:{ intros n Hn. unfold parse_predefined.
      destruct (key_in n ticket) eqn:Hkey; [|done].
      by rewrite (validate_section_clean parser ticket sections n). }
  cbn [bind_exn]. rewrite concat_predefined.
  destruct (bool_decide (is_Some (ticket !! "text"))); [|done].
  match goal with
  | |- inr (_ ++ (_ <$> ?F)) = _ => assert (F = []) as ->
  end; [|by rewrite app_nil_r].
  assert (tp_required_sections parser ⊆ tp_sections parser) as Hsub
    by by eapply required_names_sub.
  rewrite Forall_forall in Hmissing. clear Hrequired. revert Hmissing Hsub.
  generalize (tp_required_sections parser). intros required.
  induction required as [|r required IH]; intros Hmissing Hsub; [done|].
  simpl. rewrite py_in_elem.
  - simpl. apply IH.
    + intros x Hx. apply Hmissing. by right.
    + intros x Hx. apply Hsub. by right.
  - rewrite <- list_fmap_compose. apply list_elem_of_fmap. exists r.
    split; [done|]. apply list_elem_of_In, filter_In.
    split; [apply list_elem_of_In, Hsub; left|apply Hmissing; left].
Qed.

(** The statement of X26 at a ticket with both sections of
    [enum_template]. *)
Lemma clean_ticket_parses_witness :
  ∃ validator parser,
    TicketValidator_init enum_template = inr validator
    ∧ TicketParser_init enum_template = inr parser
    ∧ parse_ticket parser ticket_high_priority
      = inr [predefined ticket_high_priority (SStr "Summary");
             predefined ticket_high_priority (SStr "Priority")].
Proof.
  do 2 eexists. split; [reflexivity|]. split; [reflexivity|].
  by rewrite (clean_ticket_parses enum_template _ _ ticket_high_priority
                eq_refl eq_refl eq_refl).
Defined.
